(** * ptext: cross-reference stream reader and dictionary write transformer

    A shallow embedding of two functions of the ptext PDF library,

    - [StreamXREF.read]  (ptext/pdf/xref/stream_xref.py), and
    - [WriteDictionaryTransformer.transform]
      (ptext/io/write_transform/object/write_dictionary_transformer.py),

    together with the properties the specification states about them.
    Python integers are [Z]; Python exceptions are the [Err] results of a
    small error monad; in-place mutation of objects held in a list is an
    update of the list at the index of the object. *)

From Stdlib Require Import ZArith Lia Bool String DecimalString.
From Stdlib.Strings Require Import Byte.
From stdpp Require Import base list strings.

Local Open Scope Z_scope.

(** ** Exceptions *)

Inductive error : Set :=
  | PDFTypeError
  | PDFValueError
  | AssertionError
  | IndexError
  | ConversionError.

Inductive result (A : Type) : Type :=
  | Ok (a : A)
  | Err (e : error).

Arguments Ok {A} a.
Arguments Err {A} e.

Definition bind {A B : Type} (m : result A) (f : A -> result B) : result B :=
  match m with
  | Ok a => f a
  | Err e => Err e
  end.

Notation "x <~ m ;; k" := (bind m (fun x => k))
  (at level 100, m at next level, right associativity).
Notation "'pair!' p <~ m ;; k" := (bind m (fun x => match x with p => k end))
  (at level 100, p pattern, m at next level, right associativity).

(** [assert c] of the source: raises [AssertionError] when [c] is false. *)
Definition assert (c : bool) : result unit :=
  if c then Ok tt else Err AssertionError.

(** [l[i]] of the source for a non-negative index: [IndexError] out of range. *)
Definition index_list {A : Type} (l : list A) (i : nat) : result A :=
  match l !! i with
  | Some a => Ok a
  | None => Err IndexError
  end.

(** ** References *)

(** The document a reference belongs to is only ever stored and compared
    against [None]; an identifier stands for the object. *)
Definition Document : Set := nat.

(** Modelled from the spec: the [Reference] class (ptext/io/read_transform/types.py)
    is not part of the sources at hand. The fields are those of the data model
    (section 3): an object number, a generation number, whether the entry is in
    use, an optional byte offset, the optional pair locating a compressed object
    and the back-edge to the owning document. The reader tests
    [object_number] and [document] against [None], so both are optional here. *)
Record Reference : Set := mkReference {
  object_number : option Z;
  generation_number : Z;
  parent_stream_object_number : option Z;
  index_in_parent_stream : option Z;
  byte_offset : option Z;
  is_in_use : bool;
  document : option Document
}.

Definition option_Z_eqb (a b : option Z) : bool :=
  match a, b with
  | Some x, Some y => x =? y
  | None, None => true
  | _, _ => false
  end.

Definition option_nat_eqb (a b : option nat) : bool :=
  match a, b with
  | Some x, Some y => Nat.eqb x y
  | None, None => true
  | _, _ => false
  end.

(** ** The cross-reference stream *)

(** An element of [/W], [/Index] or the value of [/Size]: a [Decimal], of which
    the reader only ever takes [int(...)], or an object of another type. *)
Inductive HeaderValue : Set :=
  | HDecimal (z : Z)
  | HOther.

Definition is_Decimal (v : HeaderValue) : bool :=
  match v with HDecimal _ => true | HOther => false end.

(** [int(v)] *)
Definition to_int (v : HeaderValue) : result Z :=
  match v with HDecimal z => Ok z | HOther => Err ConversionError end.

(** The stream object returned by the tokenizer, after [decode_stream] has
    attached its [DecodedBytes]. A missing dictionary key is [None]. *)
Record XRefStream : Set := mkXRefStream {
  W : option (list HeaderValue);
  Size : option HeaderValue;
  Index : option (list HeaderValue);
  DecodedBytes : list byte
}.

Definition byte_to_Z (b : byte) : Z := Z.of_N (Byte.to_N b).

(** One of the three inner loops
    [for j in range(0, w): x = (x << 8) + (bytes[bptr] & 0xFF); bptr += 1]. *)
Fixpoint read_field (bytes : list byte) (w : nat) (x : Z) (bptr : nat)
  : result (Z * nat) :=
  match w with
  | O => Ok (x, bptr)
  | S w' =>
      b <~ index_list bytes bptr ;;
      read_field bytes w' (Z.shiftl x 8 + Z.land (byte_to_Z b) 255) (S bptr)
  end.

(** Lines 116-134: the three fields of one entry, and the advanced pointer. *)
Definition decode_entry (widths : list Z) (bytes : list byte) (bptr : nat)
  : result (Z * Z * Z * nat) :=
  w0 <~ index_list widths 0 ;;
  pair! (type, bptr) <~ (if 0 <? w0
                    then read_field bytes (Z.to_nat w0) 0 bptr
                    else Ok (1, bptr)) ;;
  w1 <~ index_list widths 1 ;;
  pair! (field2, bptr) <~ read_field bytes (Z.to_nat w1) 0 bptr ;;
  w2 <~ index_list widths 2 ;;
  pair! (field3, bptr) <~ read_field bytes (Z.to_nat w2) 0 bptr ;;
  Ok (type, field2, field3, bptr).

(** Lines 139-183: the reference an entry stands for. [is_in_use] defaults to
    [True] in the constructor; the locating fields default to [None]. *)
Definition make_reference (doc : option Document) (object_number type field2 field3 : Z)
  : result Reference :=
  _ <~ assert ((type =? 0) || (type =? 1) || (type =? 2)) ;;
  if type =? 0 then
    Ok (mkReference (Some object_number) field3 None None (Some field2) false doc)
  else if type =? 1 then
    Ok (mkReference (Some object_number) field3 None None (Some field2) true doc)
  else
    Ok (mkReference (Some object_number) 0 (Some field2) (Some field3) None true doc).

(** Lines 186-196: the first reference of the list with this object number. *)
Definition find_existing (refs : list Reference) (n : Z) : option (nat * Reference) :=
  list_find (fun x => object_number x = Some n) refs.

(** Lines 214-219: the two assignments to the existing reference. *)
Definition fill_compressed (existing new : Reference) : Reference :=
  mkReference (object_number existing) (generation_number existing)
    (parent_stream_object_number new) (index_in_parent_stream new)
    (byte_offset existing) (is_in_use existing) (document existing).

(** Lines 185-219: append the new reference, fill the existing one, or drop
    the entry. The existing reference is an element of the list, mutated in
    place. *)
Definition merge_reference (refs : list Reference) (n : Z) (new : Reference)
  : list Reference :=
  match find_existing refs n with
  | None => refs ++ [new]
  | Some (i, existing) =>
      let ref_is_in_reading_state :=
        is_in_use existing && (generation_number existing =? generation_number new) in
      let ref_is_first_encountered :=
        negb ref_is_in_reading_state && option_nat_eqb (document existing) None in
      if ref_is_first_encountered then refs ++ [new]
      else if ref_is_in_reading_state then <[i := fill_compressed existing new]> refs
      else refs
  end.

(** The body of the loop over [i]: lines 113-219. *)
Definition read_entry (doc : option Document) (widths : list Z) (bytes : list byte)
    (object_number : Z) (st : list Reference * nat) : result (list Reference * nat) :=
  let '(refs, bptr) := st in
  pair! (type, field2, field3, bptr) <~ decode_entry widths bytes bptr ;;
  r <~ make_reference doc object_number type field2 field3 ;;
  Ok (merge_reference refs object_number r, bptr).

(** [for i in range(0, length)], entered at [i] with [n] iterations left. *)
Fixpoint read_entries (doc : option Document) (widths : list Z) (bytes : list byte)
    (start : Z) (n : nat) (i : Z) (st : list Reference * nat)
  : result (list Reference * nat) :=
  match n with
  | O => Ok st
  | S n' =>
      st <~ read_entry doc widths bytes (start + i) st ;;
      read_entries doc widths bytes start n' (i + 1) st
  end.

(** [for idx in range(0, len(index), 2)]: lines 106-219. The byte pointer is
    set to 0 at the start of every subsection (line 110). *)
Fixpoint read_subsections (doc : option Document) (widths : list Z) (bytes : list byte)
    (index : list HeaderValue) (refs : list Reference) : result (list Reference) :=
  match index with
  | [] => Ok refs
  | [_] => Err IndexError
  | first :: count :: index' =>
      start <~ to_int first ;;
      length <~ to_int count ;;
      pair! (refs, _) <~ read_entries doc widths bytes start (Z.to_nat length) 0 (refs, 0%nat) ;;
      read_subsections doc widths bytes index' refs
  end.

(** Lines 68-76: the reference the list starts with. *)
Definition free_list_head (doc : option Document) : Reference :=
  mkReference (Some 0) 65535 None None None false doc.

Fixpoint to_ints (l : list HeaderValue) : result (list Z) :=
  match l with
  | [] => Ok []
  | v :: l' => z <~ to_int v ;; zs <~ to_ints l' ;; Ok (z :: zs)
  end.

(** [StreamXREF.read], from the stream object on: lines 47-223. [doc] is the
    value of [self.get_root()]; the result is the list [indirect_references]
    whose elements are handed, in order, to [self.append]. *)
Definition read (doc : option Document) (xref_stream : XRefStream)
  : result (list Reference) :=
  match W xref_stream with
  | None => Err PDFTypeError
  | Some w =>
      if negb (forallb is_Decimal w) then Err PDFValueError else
      widths <~ to_ints w ;;
      match Size xref_stream with
      | None => Err PDFTypeError
      | Some HOther => Err PDFTypeError
      | Some (HDecimal number_of_objects) =>
          index <~ match Index xref_stream with
                   | Some index =>
                       _ <~ assert (Nat.even (length index)) ;;
                       i0 <~ index_list index 0 ;;
                       _ <~ assert (is_Decimal i0) ;;
                       i1 <~ index_list index 1 ;;
                       _ <~ assert (is_Decimal i1) ;;
                       Ok index
                   | None => Ok [HDecimal 0; HDecimal number_of_objects]
                   end ;;
          read_subsections doc widths (DecodedBytes xref_stream) index
            [free_list_head doc]
      end
  end.

(** ** The object graph handed to the writer *)

(** Python objects have identity and are shared: a composite object lives in a
    heap and a value that is a composite object is its location. *)
Abbreviation loc := nat (only parsing).

(** [AnyPDFType]. A leaf (null, boolean, number, name, string) is kept as the
    text its transformer writes. *)
Inductive AnyPDFType : Set :=
  | Leaf (text : string)
  | RefValue (r : Reference)
  | Composite (l : loc).

(** The four classes [transform] tests a child against (lines 43-46). *)
Inductive Kind : Set :=
  | KDictionary
  | KList
  | KStream
  | KImage.

(** A dictionary as Python has it: keys in insertion order. *)
Definition Dictionary : Set := list (string * AnyPDFType).

(** A composite object: its class, its entries (for a dictionary) and the
    back-reference that [get_reference()] returns and [set_reference] sets. *)
Record PdfObject : Set := mkPdfObject {
  kind : Kind;
  items : Dictionary;
  reference : option Reference
}.

(** What one call of [destination.write] appends. The header of an object
    keeps the reference it was written for and the opening of a dictionary the
    location of that dictionary; [chunk_bytes] gives the bytes. *)
Inductive Chunk : Set :=
  | ObjHeader (r : Reference)
  | EndObj
  | DictOpen (owner : loc)
  | DictClose
  | Space
  | Text (s : string)
  | IndirectRef (n : option Z) (g : Z).

Definition Z_to_string (z : Z) : string := NilZero.string_of_int (Z.to_int z).

Definition number_text (n : option Z) : string :=
  match n with
  | Some z => Z_to_string z
  | None => "None"
  end.

Definition chunk_bytes (c : Chunk) : string :=
  match c with
  | ObjHeader r =>
      number_text (object_number r) +:+ " " +:+ Z_to_string (generation_number r)
        +:+ " obj" +:+ String (Ascii.ascii_of_nat 10) ""
  | EndObj => "endobj" +:+ String (Ascii.ascii_of_nat 10) ""
  | DictOpen _ => "<<"
  | DictClose => ">>" +:+ String (Ascii.ascii_of_nat 10) ""
  | Space => " "
  | Text s => s
  | IndirectRef n g => number_text n +:+ " " +:+ Z_to_string g +:+ " R"
  end.

(** [destination.tell()]: the number of bytes written so far. *)
Definition tell (destination : list Chunk) : Z :=
  foldr (fun c n => Z.of_nat (String.length (chunk_bytes c)) + n) 0 destination.

(** The heap together with the [TransformerWriteContext] of the pass
    (section 4.7: destination, duplicate_references, next_object_number). *)
Record State : Set := mkState {
  heap : list PdfObject;
  destination : list Chunk;
  duplicate_references : list Reference;
  next_object_number : Z
}.

Definition write (cs : list Chunk) (w : State) : State :=
  mkState (heap w) (destination w ++ cs) (duplicate_references w) (next_object_number w).

Definition set_reference (l : loc) (r : Reference) (w : State) : State :=
  mkState (alter (fun o => mkPdfObject (kind o) (items o) (Some r)) l (heap w))
    (destination w) (duplicate_references w) (next_object_number w).

Definition append_duplicate (r : Reference) (w : State) : State :=
  mkState (heap w) (destination w) (duplicate_references w ++ [r]) (next_object_number w).

(** Modelled from the spec: [Reference] equality, which decides
    [ref in context.duplicate_references]; the class is not in the sources.
    Equality is structural (section 4.1). *)
Definition Reference_eqb (a b : Reference) : bool :=
  option_Z_eqb (object_number a) (object_number b)
  && (generation_number a =? generation_number b)
  && option_Z_eqb (parent_stream_object_number a) (parent_stream_object_number b)
  && option_Z_eqb (index_in_parent_stream a) (index_in_parent_stream b)
  && option_Z_eqb (byte_offset a) (byte_offset b)
  && Bool.eqb (is_in_use a) (is_in_use b)
  && option_nat_eqb (document a) (document b).

Definition ref_in (r : Reference) (l : list Reference) : bool :=
  existsb (Reference_eqb r) l.

(** [Reference(object_number=n, generation_number=0)]: the reference of a newly
    numbered object. *)
Definition new_reference (n : Z) : Reference :=
  mkReference (Some n) 0 None None None true None.

(** Modelled from the spec: [WriteBaseTransformer.get_reference] is not in the
    sources. Section 4.6: if the object already carries a back-reference that
    has an object number, return it; otherwise allocate the next unused object
    number, attach it as the back-reference and return it. *)
Definition get_reference (l : loc) (w : State) : option (Reference * State) :=
  o ← heap w !! l;
  match reference o with
  | Some (mkReference (Some n) g p i b u d) => Some (mkReference (Some n) g p i b u d, w)
  | _ =>
      let r := new_reference (next_object_number w) in
      Some (r, mkState (heap (set_reference l r w)) (destination w)
                 (duplicate_references w) (next_object_number w + 1))
  end.

(** Modelled from the spec: [WriteBaseTransformer.start_object] is not in the
    sources. Section 4.6, step 2 and section 9: the byte offset is recorded in
    the reference at the moment [N G obj] is written. The reference is the
    object attached to the dictionary, so the caller's [ref] sees the offset. *)
Definition start_object (l : loc) (ref : Reference) (w : State) : Reference * State :=
  let ref' := mkReference (object_number ref) (generation_number ref)
                (parent_stream_object_number ref) (index_in_parent_stream ref)
                (Some (tell (destination w))) (is_in_use ref) (document ref) in
  (ref', write [ObjHeader ref'] (set_reference l ref' w)).

(** Modelled from the spec: [WriteBaseTransformer.end_object] is not in the
    sources; it writes [endobj]. *)
Definition end_object (w : State) : State := write [EndObj] w.

(** [out_value[k] = v] on an insertion-ordered dictionary. *)
Fixpoint dict_set (d : Dictionary) (k : string) (v : AnyPDFType) : Dictionary :=
  match d with
  | [] => [(k, v)]
  | (k', v') :: d' =>
      if String.eqb k' k then (k', v) :: d' else (k', v') :: dict_set d' k v
  end.

(** Lines 41-51: the loop that fills [out_value] and [queue]. *)
Fixpoint rewrite_children (its : Dictionary) (out_value : Dictionary)
    (queue : list AnyPDFType) (w : State)
  : option (Dictionary * list AnyPDFType * State) :=
  match its with
  | [] => Some (out_value, queue, w)
  | (k, v) :: its' =>
      match v with
      | Composite c =>
          '(r, w) ← get_reference c w;
          rewrite_children its' (dict_set out_value k (RefValue r)) (queue ++ [v]) w
      | _ => rewrite_children its' (dict_set out_value k v) queue w
      end
  end.

(** Lines 53-63: [None] is the [return] of line 59; otherwise whether the
    object has been started, and the state with the reference recorded in
    [duplicate_references]. The [ref] appended in line 63 is the object that
    [start_object] has updated. *)
Definition begin_object (l : loc) (ref : option Reference) (w : State)
  : option (bool * State) :=
  match ref with
  | Some ref =>
      if ref_in ref (duplicate_references w) then None
      else
        match object_number ref, byte_offset ref with
        | Some _, None =>
            let '(ref, w) := start_object l ref w in
            Some (true, append_duplicate ref w)
        | _, _ => Some (false, append_duplicate ref w)
        end
  | None => Some (false, w)
  end.

Section Transform.

(** [self.get_root_transformer().transform]. *)
Variable root_transform : AnyPDFType -> State -> option State.

(** Lines 68-73: the entries of the body, a space after each but the last. *)
Fixpoint write_items (out_value : Dictionary) (w : State) : option State :=
  match out_value with
  | [] => Some w
  | (k, v) :: rest =>
      w ← root_transform (Leaf k) w;
      w ← root_transform v (write [Space] w);
      write_items rest (match rest with [] => w | _ => write [Space] w end)
  end.

(** Lines 80-81. *)
Fixpoint transform_queue (queue : list AnyPDFType) (w : State) : option State :=
  match queue with
  | [] => Some w
  | e :: queue' => w ← root_transform e w; transform_queue queue' w
  end.

(** Lines 65-84: everything after the object has been started. *)
Definition emit (l : loc) (out_value : Dictionary) (queue : list AnyPDFType)
    (started_object : bool) (w : State) : option (State * option Dictionary) :=
  w ← write_items out_value (write [DictOpen l] w);
  let w := write [DictClose] w in
  let w := if started_object then end_object w else w in
  w ← transform_queue queue w;
  Some (w, Some out_value).

(** [WriteDictionaryTransformer.transform] on the dictionary at [l]. The
    second component is the return value: [None] for the bare [return] of
    line 59, the output dictionary otherwise. *)
Definition transform (l : loc) (w : State) : option (State * option Dictionary) :=
  o ← heap w !! l;
  '(out_value, queue, w) ← rewrite_children (items o) [] [] w;
  o ← heap w !! l;
  match begin_object l (reference o) w with
  | None => Some (w, None)
  | Some (started_object, w) => emit l out_value queue started_object w
  end.

End Transform.

Section RootTransformer.

(** The transformers of arrays, streams and images are not in the sources:
    whatever they do to the state is a parameter. [None] is a call that does
    not return. *)
Variable write_other : Kind -> loc -> State -> option State.

(** Modelled from the spec: the root transformer is not in the sources.
    Section 4.6: it dispatches on the variant of the value; a leaf writes its
    text, a reference writes [N G R], a dictionary goes to
    [WriteDictionaryTransformer.transform]. The recursion through the graph
    is bounded by [fuel]; running out of it, or following a location outside
    the heap, gives [None]. *)
Fixpoint root_transform (fuel : nat) (v : AnyPDFType) (w : State) : option State :=
  match fuel with
  | O => None
  | S fuel' =>
      match v with
      | Leaf s => Some (write [Text s] w)
      | RefValue r =>
          Some (write [IndirectRef (object_number r) (generation_number r)] w)
      | Composite l =>
          o ← heap w !! l;
          match kind o with
          | KDictionary => fst <$> transform (root_transform fuel') l w
          | k => write_other k l w
          end
      end
  end.

(** A write pass over the dictionary at [l]. *)
Definition write_pass (fuel : nat) (l : loc) (w : State)
  : option (State * option Dictionary) :=
  transform (root_transform fuel) l w.

End RootTransformer.

(** ** Predicates of the statements *)

(** The reference at index [i] is the first of [refs] with object number [n]:
    the [existing_indirect_ref] of lines 186-196. *)
Definition first_with_number (refs : list Reference) (n : Z) (i : nat)
    (existing : Reference) : Prop :=
  refs !! i = Some existing /\ object_number existing = Some n /\
  forall j y, refs !! j = Some y -> (j < i)%nat -> object_number y <> Some n.


(** Located in at most one way: not both a byte offset and a parent stream. *)
Definition located_one_way (r : Reference) : Prop :=
  byte_offset r = None \/ parent_stream_object_number r = None.

(** The class and the entries of every object of the heap. *)
Definition shape (w : State) : list (Kind * Dictionary) :=
  (fun o => (kind o, items o)) <$> heap w.

(** What every Python heap satisfies: the keys of a dictionary are distinct
    and a value that is an object is an object of the heap. *)
Definition well_formed (w : State) : Prop :=
  forall l k its, shape w !! l = Some (k, its) ->
    NoDup its.*1 /\ forall key c, (key, Composite c) ∈ its -> (c < length (shape w))%nat.

(** An object graph made of dictionaries, leaves and references. *)
Definition dictionaries_only (w : State) : Prop :=
  forall l k its, shape w !! l = Some (k, its) -> k = KDictionary.

Definition is_composite (v : AnyPDFType) : bool :=
  match v with Composite _ => true | _ => false end.

(** The composite children of a dictionary, in the order of its entries. *)
Definition composites (its : Dictionary) : list AnyPDFType :=
  List.filter is_composite its.*2.

(** The back-reference of the object at [l]. *)
Definition back_reference (w : State) (l : loc) : option Reference :=
  o ← heap w !! l; reference o.

(** An entry of the input dictionary and the entry of the output dictionary
    that stands for it, [w] and [w1] being the states before and after the
    loop of lines 41-51. *)
Definition rewritten (w w1 : State) (item out_item : string * AnyPDFType) : Prop :=
  item.1 = out_item.1 /\
  match item.2 with
  | Composite c =>
      exists r, out_item.2 = RefValue r /\ is_Some (object_number r) /\
                back_reference w1 c = Some r /\
                (forall r0, back_reference w c = Some r0 ->
                            is_Some (object_number r0) -> r = r0)
  | v => out_item.2 = v
  end.

(** What the transformers of leaves and references write for a value. *)
Definition value_chunks (v : AnyPDFType) : list Chunk :=
  match v with
  | Leaf s => [Text s]
  | RefValue r => [IndirectRef (object_number r) (generation_number r)]
  | Composite _ => []
  end.

(** The chunks between [<<] and [>>] for an output dictionary. *)
Fixpoint item_chunks (out_value : Dictionary) : list Chunk :=
  match out_value with
  | [] => []
  | (k, v) :: rest =>
      Text k :: Space :: value_chunks v ++
        match rest with [] => [] | _ => Space :: item_chunks rest end
  end.




(** The object at [l] has a numbered back-reference that is recorded in
    [duplicate_references]. *)
Definition done_b (w : State) (l : loc) : bool :=
  match back_reference w l with
  | Some r => bool_decide (is_Some (object_number r)) && ref_in r (duplicate_references w)
  | None => false
  end.

(** The number of objects of the heap that are not done. *)
Definition pending (w : State) : nat :=
  length (filter (fun l => done_b w l = false) (seq 0 (length (heap w)))).





(** [w'] comes after [w] in a pass: the entries of the objects are the same,
    the destination and the recorded references have grown, and a numbered
    back-reference keeps its numbers, and itself once it is recorded. *)
Definition extends (w w' : State) : Prop :=
  shape w' = shape w /\
  (exists new, destination w' = destination w ++ new) /\
  (exists new, duplicate_references w' = duplicate_references w ++ new) /\
  (forall l r, back_reference w l = Some r -> is_Some (object_number r) ->
     exists r', back_reference w' l = Some r' /\
                object_number r' = object_number r /\
                generation_number r' = generation_number r /\
                (r ∈ duplicate_references w -> r' = r)).

(** [w'] is [w] after some calls of [get_reference]: objects without a
    numbered back-reference may have been given a new one. *)
Definition numbering (w w' : State) : Prop :=
  shape w' = shape w /\
  destination w' = destination w /\
  duplicate_references w' = duplicate_references w /\
  next_object_number w <= next_object_number w' /\
  (forall l r, back_reference w l = Some r -> is_Some (object_number r) ->
     back_reference w' l = Some r) /\
  (forall l r', back_reference w' l = Some r' ->
     back_reference w l = Some r' \/ exists n, r' = new_reference n).

(** A chunk that neither starts an object nor opens a dictionary. *)
Definition is_plain (c : Chunk) : bool :=
  match c with
  | ObjHeader _ | DictOpen _ => false
  | _ => true
  end.


(** A value the root transformer is given from a queue: a composite child
    has been given its numbered back-reference. *)
Definition queued (w : State) (v : AnyPDFType) : Prop :=
  match v with
  | Composite c => exists r, back_reference w c = Some r /\ is_Some (object_number r)
  | _ => True
  end.


(** ** Object graphs of the examples *)

(** A root transformer with no transformer for arrays, streams and images. *)
Definition no_other_transformer : Kind -> loc -> State -> option State :=
  fun _ _ _ => None.

(** [D = {/Type: /Catalog, /Self: D, /Kid: B}] and [B = {/Parent: D}], built
    in memory: no back-references yet. *)
Definition self_dictionary : PdfObject :=
  mkPdfObject KDictionary
    [("/Type"%string, Leaf "/Catalog"); ("/Self"%string, Composite 0%nat);
     ("/Kid"%string, Composite 1%nat)] None.

Definition kid_dictionary : PdfObject :=
  mkPdfObject KDictionary [("/Parent"%string, Composite 0%nat)] None.

Definition cycle_state : State :=
  mkState [self_dictionary; kid_dictionary] [] [] 1.



(** ** Further notions for the statements about [read] *)

(** The big-endian unsigned value of a run of bytes, continuing from [x]. *)
Definition big_endian_from (x : Z) (bs : list byte) : Z :=
  foldl (fun acc b => acc * 256 + byte_to_Z b) x bs.

Definition big_endian (bs : list byte) : Z := big_endian_from 0 bs.

(** The [n] bytes from position [p] on. *)
Definition slice (bytes : list byte) (p n : nat) : list byte :=
  take n (drop p bytes).

(** The number of bytes of one entry under the first three widths. *)
Definition entry_width (w1 w2 w3 : Z) : nat :=
  (Z.to_nat w1 + Z.to_nat w2 + Z.to_nat w3)%nat.

(** The index the loops of lines 106-111 run over: [/Index], or [[0 Size]]. *)
Definition index_of (xref_stream : XRefStream) : list HeaderValue :=
  match Index xref_stream, Size xref_stream with
  | Some index, _ => index
  | None, Some (HDecimal n) => [HDecimal 0; HDecimal n]
  | None, _ => []
  end.

(** The subsections of an index: pairs of a first object number and a count. *)
Fixpoint subsections (index : list HeaderValue) : list (Z * Z) :=
  match index with
  | HDecimal first :: HDecimal count :: index' => (first, count) :: subsections index'
  | _ => []
  end.

(** The object numbers of the entries, subsection after subsection. *)
Definition entry_numbers (index : list HeaderValue) : list Z :=
  flat_map (fun '(first, count) => seqZ first (Z.of_nat (Z.to_nat count)))
    (subsections index).

(** [numbers] followed by [n] unless it is there already. *)
Definition add_once (numbers : list Z) (n : Z) : list Z :=
  if decide (n ∈ numbers) then numbers else numbers ++ [n].

(** ** Further notions for the statements about [transform] *)

Definition is_header (c : Chunk) : bool :=
  match c with ObjHeader _ => true | _ => false end.

Definition is_endobj (c : Chunk) : bool :=
  match c with EndObj => true | _ => false end.

Definition is_open (c : Chunk) : bool :=
  match c with DictOpen _ => true | _ => false end.

Definition is_close (c : Chunk) : bool :=
  match c with DictClose => true | _ => false end.

(** As many [endobj] as [N G obj], and as many [>>] as [<<]. *)
Definition balanced (cs : list Chunk) : Prop :=
  length (List.filter is_header cs) = length (List.filter is_endobj cs) /\
  length (List.filter is_open cs) = length (List.filter is_close cs).

(** [w'] has the destination of [w] followed by balanced chunks. *)
Definition appends_balanced (w w' : State) : Prop :=
  exists new, destination w' = destination w ++ new /\ balanced new.

(** [w'] has what [w] has written and recorded, and possibly more, and its
    next object number is not smaller. *)
Definition grows (w w' : State) : Prop :=
  (exists new, destination w' = destination w ++ new) /\
  (exists new, duplicate_references w' = duplicate_references w ++ new) /\
  next_object_number w <= next_object_number w'.

(** A well-formed heap of dictionaries. *)
Definition graph_state (w : State) : Prop :=
  well_formed w /\ dictionaries_only w.

(** Every composite value of the list is done. *)
Definition all_done (w : State) (q : list AnyPDFType) : Prop :=
  Forall (fun v => match v with Composite c => done_b w c = true | _ => True end) q.


(** Entry [j] of a subsection lies within the decoded bytes and has one of the
    three types. Every subsection is read from byte 0 on (line 110). *)
Definition entry_ok (w1 w2 w3 : Z) (bytes : list byte) (j : nat) : Prop :=
  exists ty f2 f3,
    decode_entry [w1; w2; w3] bytes (j * entry_width w1 w2 w3)
    = Ok (ty, f2, f3, (S j * entry_width w1 w2 w3)%nat) /\
    (ty = 0 \/ ty = 1 \/ ty = 2).

(** * Properties of [StreamXREF.read] *)

Section XrefProperties.

Implicit Types (doc : option Document) (refs : list Reference) (r : Reference).
Implicit Types (widths : list Z) (bytes : list byte).

Lemma bind_Ok {A B} (m : result A) (f : A -> result B) (b : B) :
  bind m f = Ok b -> exists a, m = Ok a /\ f a = Ok b.
Proof. destruct m as [a|e]; simpl; [eauto | discriminate]. Qed.

Lemma byte_to_Z_range (b : byte) : 0 <= byte_to_Z b < 256.
Proof.
  unfold byte_to_Z. pose proof (Byte.to_N_bounded b) as H.
  split; [apply N2Z.is_nonneg |].
  apply N.lt_succ_r in H. change (N.succ 255) with 256%N in H. lia.
Qed.

Lemma byte_land_255 (b : byte) : Z.land (byte_to_Z b) 255 = byte_to_Z b.
Proof.
  change 255 with (Z.ones 8). rewrite Z.land_ones by lia.
  apply Z.mod_small. change (2 ^ 8) with 256. apply byte_to_Z_range.
Qed.

(** A field advances the pointer by its width. *)
Lemma read_field_advance bytes w : forall x bptr v bptr',
  read_field bytes w x bptr = Ok (v, bptr') -> bptr' = (bptr + w)%nat.
Proof.
  induction w as [|w IH]; intros x bptr v bptr' H; simpl in H.
  - inversion H. lia.
  - apply bind_Ok in H as (b & _ & H). apply IH in H. lia.
Qed.

(** A field succeeds when its bytes are there. *)
Lemma read_field_total bytes w : forall x bptr,
  (bptr + w <= length bytes)%nat -> exists v, read_field bytes w x bptr = Ok (v, (bptr + w)%nat).
Proof.
  induction w as [|w IH]; intros x bptr H; simpl.
  - exists x. f_equal. f_equal. lia.
  - destruct (lookup_lt_is_Some_2 bytes bptr) as [b Hb]; [lia|].
    unfold index_list. rewrite Hb. simpl.
    destruct (IH (Z.shiftl x 8 + Z.land (byte_to_Z b) 255) (S bptr)) as [v Hv]; [lia|].
    exists v. rewrite Hv. f_equal. f_equal. lia.
Qed.

(** An entry takes [w1 + w2 + w3] consecutive bytes from the pointer. *)
Lemma decode_entry_advance w1 w2 w3 bytes bptr ty f2 f3 bptr' :
  decode_entry [w1; w2; w3] bytes bptr = Ok (ty, f2, f3, bptr') ->
  bptr' = (bptr + Z.to_nat w1 + Z.to_nat w2 + Z.to_nat w3)%nat.
Proof.
  unfold decode_entry. simpl. intros H.
  apply bind_Ok in H as ([t b1] & H1 & H).
  apply bind_Ok in H as ([x2 b2] & H2 & H).
  apply bind_Ok in H as ([x3 b3] & H3 & H).
  inversion H; subst. clear H.
  apply read_field_advance in H2, H3.
  destruct (0 <? w1) eqn:Hw.
  - apply read_field_advance in H1. lia.
  - inversion H1; subst. apply Z.ltb_ge in Hw. lia.
Qed.

(** *** Zero widths *)

Lemma decode_entry_no_width bytes bptr :
  decode_entry [0; 0; 0] bytes bptr = Ok (1, 0, 0, bptr).
Proof. reflexivity. Qed.

Lemma decode_entry_type_only bytes bptr b :
  bytes !! bptr = Some b ->
  decode_entry [1; 0; 0] bytes bptr = Ok (byte_to_Z b, 0, 0, S bptr).
Proof.
  intros Hb. unfold decode_entry. simpl. unfold index_list. rewrite Hb. simpl.
  rewrite byte_land_255, Z.shiftl_0_l. reflexivity.
Qed.

Lemma decode_entry_defaults widths bytes bptr ty f2 f3 bptr' :
  decode_entry widths bytes bptr = Ok (ty, f2, f3, bptr') ->
  (widths !! 0%nat = Some 0 -> ty = 1) /\
  (widths !! 1%nat = Some 0 -> f2 = 0) /\
  (widths !! 2%nat = Some 0 -> f3 = 0).
Proof.
  unfold decode_entry, index_list. intros H.
  destruct (widths !! 0%nat) as [w0|] eqn:E0; [|discriminate]. simpl in H.
  apply bind_Ok in H as ([t b1] & H1 & H).
  destruct (widths !! 1%nat) as [w1|] eqn:E1; [|discriminate]. simpl in H.
  apply bind_Ok in H as ([x2 b2] & H2 & H).
  destruct (widths !! 2%nat) as [w2|] eqn:E2; [|discriminate]. simpl in H.
  apply bind_Ok in H as ([x3 b3] & H3 & H).
  inversion H; subst; clear H.
  repeat split; intros [= ->]; simpl in *; congruence.
Qed.

Lemma make_reference_valid doc n ty f2 f3 :
  0 <= ty <= 2 -> exists r, make_reference doc n ty f2 f3 = Ok r.
Proof.
  intros H. unfold make_reference.
  assert (ty = 0 \/ ty = 1 \/ ty = 2) as [-> | [-> | ->]] by lia; simpl; eauto.
Qed.

Lemma read_entries_type_only doc bytes start k : forall i refs bptr,
  (bptr + k <= length bytes)%nat ->
  (forall j b, (bptr <= j < bptr + k)%nat -> bytes !! j = Some b -> byte_to_Z b <= 2) ->
  exists refs', read_entries doc [1; 0; 0] bytes start k i (refs, bptr)
                = Ok (refs', (bptr + k)%nat).
Proof.
  induction k as [|k IH]; intros i refs bptr Hlen Hty; simpl.
  - exists refs. do 2 f_equal. lia.
  - destruct (lookup_lt_is_Some_2 bytes bptr) as [b Hb]; [lia|].
    rewrite (decode_entry_type_only _ _ _ Hb). simpl.
    destruct (make_reference_valid doc (start + i) (byte_to_Z b) 0 0) as [r Hr].
    { split; [apply byte_to_Z_range | apply (Hty bptr); [lia | done]]. }
    rewrite Hr. simpl.
    destruct (IH (i + 1) (merge_reference refs (start + i) r) (S bptr)) as [refs' H'].
    { lia. } { intros j b' Hj. apply Hty. lia. }
    exists refs'. rewrite H'. do 2 f_equal. lia.
Qed.

(** C8: a field of width zero takes its default. With [w1 = 0] the type is 1
    and a second or third field of width 0 is 0, whatever the other widths
    are; with no width at all an entry is [(1, 0, 0)] and takes no byte;
    under [/W [1 0 0]] an entry is its type byte with both fields 0, and a
    stream of [n] such entries whose types are 0, 1 or 2 is read without
    error. *)
Theorem zero_width_fields_default doc (n : nat) bytes :
  (n <= length bytes)%nat ->
  Forall (fun b => byte_to_Z b <= 2) (take n bytes) ->
  (exists refs,
      read doc (mkXRefStream (Some [HDecimal 1; HDecimal 0; HDecimal 0])
                  (Some (HDecimal (Z.of_nat n))) None bytes) = Ok refs) /\
  (forall bptr b, bytes !! bptr = Some b ->
      decode_entry [1; 0; 0] bytes bptr = Ok (byte_to_Z b, 0, 0, S bptr)) /\
  (forall bptr, decode_entry [0; 0; 0] bytes bptr = Ok (1, 0, 0, bptr)) /\
  (forall widths bptr ty f2 f3 bptr',
      decode_entry widths bytes bptr = Ok (ty, f2, f3, bptr') ->
      (widths !! 0%nat = Some 0 -> ty = 1) /\
      (widths !! 1%nat = Some 0 -> f2 = 0) /\
      (widths !! 2%nat = Some 0 -> f3 = 0)).
Proof.
  intros Hlen Hty. split; [|split; [|split]].
  - unfold read. simpl. rewrite Nat2Z.id.
    destruct (read_entries_type_only doc bytes 0 n 0 [free_list_head doc] 0%nat)
      as [refs' H]; [lia | |].
    + intros j b Hj Hb. rewrite Forall_forall in Hty. apply Hty.
      apply list_elem_of_lookup. exists j. rewrite lookup_take_lt by lia. done.
    + rewrite H. simpl. eauto.
  - intros. by apply decode_entry_type_only.
  - intros. apply decode_entry_no_width.
  - intros. by eapply decode_entry_defaults.
Qed.

(** *** Entry types *)



(** *** The loops preserve what every merge preserves *)

Lemma read_entries_invariant (P : list Reference -> Prop) doc widths bytes start :
  (forall refs n ty f2 f3 r,
      P refs -> make_reference doc n ty f2 f3 = Ok r -> P (merge_reference refs n r)) ->
  forall k i refs bptr refs' bptr',
    P refs ->
    read_entries doc widths bytes start k i (refs, bptr) = Ok (refs', bptr') ->
    P refs'.
Proof.
  intros Hstep. induction k as [|k IH]; intros i refs bptr refs' bptr' HP H; simpl in H.
  - by inversion H; subst.
  - apply bind_Ok in H as ([refs1 bptr1] & H1 & H).
    eapply IH; [|exact H].
    unfold read_entry in H1.
    apply bind_Ok in H1 as ([[[ty f2] f3] b] & _ & H1).
    apply bind_Ok in H1 as (r & Hr & H1). inversion H1; subst.
    by eapply Hstep.
Qed.

Lemma read_subsections_invariant (P : list Reference -> Prop) doc widths bytes :
  (forall refs n ty f2 f3 r,
      P refs -> make_reference doc n ty f2 f3 = Ok r -> P (merge_reference refs n r)) ->
  forall (k : nat) index refs refs',
    (length index <= k)%nat ->
    P refs -> read_subsections doc widths bytes index refs = Ok refs' -> P refs'.
Proof.
  intros Hstep. induction k as [|k IH]; intros index refs refs' Hk HP H.
  - destruct index; simpl in Hk; [|lia]. by inversion H; subst.
  - destruct index as [|first [|count index]]; simpl in H.
    + by inversion H; subst.
    + discriminate.
    + apply bind_Ok in H as (start & _ & H).
      apply bind_Ok in H as (len & _ & H).
      apply bind_Ok in H as ([refs1 b1] & H1 & H).
      eapply (IH index refs1); [simpl in Hk; lia | | exact H].
      eapply read_entries_invariant; [exact Hstep | exact HP | exact H1].
Qed.

Lemma read_invariant (P : list Reference -> Prop) doc xref_stream refs :
  P [free_list_head doc] ->
  (forall refs n ty f2 f3 r,
      P refs -> make_reference doc n ty f2 f3 = Ok r -> P (merge_reference refs n r)) ->
  read doc xref_stream = Ok refs -> P refs.
Proof.
  intros H0 Hstep H. unfold read in H.
  destruct (W xref_stream) as [w|]; [|discriminate].
  destruct (negb (forallb is_Decimal w)); [discriminate|].
  apply bind_Ok in H as (widths & _ & H).
  destruct (Size xref_stream) as [[n|]|]; try discriminate.
  apply bind_Ok in H as (index & _ & H).
  eapply read_subsections_invariant; [exact Hstep | reflexivity | exact H0 | exact H].
Qed.

(** *** One merge *)

Lemma find_existing_Some refs n i ex :
  find_existing refs n = Some (i, ex) -> first_with_number refs n i ex.
Proof.
  unfold find_existing. intros H. apply list_find_Some in H as (H1 & H2 & H3).
  split; [done|]. split; [done|]. intros j y Hj Hlt. by eapply H3.
Qed.

Lemma find_existing_None refs n :
  find_existing refs n = None -> forall r, r ∈ refs -> object_number r <> Some n.
Proof.
  unfold find_existing. intros H r Hr.
  rewrite list_find_None in H. rewrite Forall_forall in H. by apply H.
Qed.

Lemma option_nat_eqb_None (d : option Document) :
  option_nat_eqb d None = true <-> d = None.
Proof. destruct d; simpl; split; congruence. Qed.

Lemma make_reference_fields doc n ty f2 f3 r :
  make_reference doc n ty f2 f3 = Ok r ->
  object_number r = Some n /\ document r = doc /\
  ((is_Some (byte_offset r) /\ parent_stream_object_number r = None /\
    index_in_parent_stream r = None) \/
   (byte_offset r = None /\ is_Some (parent_stream_object_number r) /\
    is_Some (index_in_parent_stream r) /\ generation_number r = 0 /\
    is_in_use r = true)).
Proof.
  unfold make_reference. intros H. apply bind_Ok in H as ([] & _ & H).
  destruct (ty =? 0); [|destruct (ty =? 1)]; inversion H; subst; simpl;
    (split; [done|]); (split; [done|]); [left | left | right]; eauto 10.
Qed.

Lemma merge_reference_cases refs n new :
  ((forall r, r ∈ refs -> object_number r <> Some n) /\
   merge_reference refs n new = refs ++ [new]) \/
  (exists i existing,
      first_with_number refs n i existing /\
      ((is_in_use existing = true /\
        generation_number existing = generation_number new /\
        merge_reference refs n new = <[i := fill_compressed existing new]> refs) \/
       (~ (is_in_use existing = true /\
           generation_number existing = generation_number new) /\
        is_Some (document existing) /\
        merge_reference refs n new = refs) \/
       (~ (is_in_use existing = true /\
           generation_number existing = generation_number new) /\
        document existing = None /\
        merge_reference refs n new = refs ++ [new]))).
Proof.
  unfold merge_reference.
  destruct (find_existing refs n) as [[i ex]|] eqn:Hf.
  - right. exists i, ex. split; [by apply find_existing_Some|].
    destruct (is_in_use ex) eqn:Hu; simpl.
    + destruct (generation_number ex =? generation_number new) eqn:Hg; simpl.
      * left. apply Z.eqb_eq in Hg. done.
      * apply Z.eqb_neq in Hg. right.
        destruct (document ex) as [d|] eqn:Hd; simpl; [left | right];
          (split; [intros [_ ?]; done|]); eauto.
    + right.
      destruct (document ex) as [d|] eqn:Hd; simpl; [left | right];
        (split; [intros [? _]; done|]); eauto.
  - left. split; [by apply find_existing_None | done].
Qed.

(** C4, as the code has it: the reference merged into the list is compared
    with the first reference of that object number. None yet: the new
    reference is appended. One that is in use with the generation of the new
    one: it stays in its place and only its [parent_stream_object_number] and
    [index_in_parent_stream] are overwritten with those of the new one.
    Otherwise the list is left as it is when the existing reference belongs
    to a document, and the new reference is appended after all when the
    existing one has no document. With a root document, then, no object
    number occurs twice in the list that [read] returns. *)
Theorem first_occurrence_wins refs n new :
  (((forall r, r ∈ refs -> object_number r <> Some n) /\
    merge_reference refs n new = refs ++ [new]) \/
   (exists i existing,
       first_with_number refs n i existing /\
       ((is_in_use existing = true /\
         generation_number existing = generation_number new /\
         merge_reference refs n new = <[i := fill_compressed existing new]> refs /\
         length (merge_reference refs n new) = length refs /\
         object_number (fill_compressed existing new) = object_number existing /\
         generation_number (fill_compressed existing new) = generation_number existing /\
         byte_offset (fill_compressed existing new) = byte_offset existing /\
         is_in_use (fill_compressed existing new) = is_in_use existing /\
         document (fill_compressed existing new) = document existing /\
         parent_stream_object_number (fill_compressed existing new)
         = parent_stream_object_number new /\
         index_in_parent_stream (fill_compressed existing new)
         = index_in_parent_stream new) \/
        (~ (is_in_use existing = true /\
            generation_number existing = generation_number new) /\
         is_Some (document existing) /\
         merge_reference refs n new = refs) \/
        (~ (is_in_use existing = true /\
            generation_number existing = generation_number new) /\
         document existing = None /\
         merge_reference refs n new = refs ++ [new])))) /\
  (forall (d : Document) xref_stream refs',
      read (Some d) xref_stream = Ok refs' -> NoDup (object_number <$> refs')).
Proof.
  split.
  - destruct (merge_reference_cases refs n new) as [H | (i & ex & Hfirst & H)];
      [by left | right].
    exists i, ex. split; [done|].
    destruct H as [(Hu & Hg & Hm) | [H | H]]; [left | right; by left | right; by right].
    rewrite Hm, length_insert. done.
  - intros d xref_stream refs' Hread.
    pose proof (read_invariant
      (fun refs => NoDup (object_number <$> refs) /\
                   Forall (fun r => document r = Some d) refs)
      (Some d) xref_stream refs') as Hinv.
    apply Hinv; [| | exact Hread]; clear.
    + split; [apply NoDup_singleton | by apply Forall_singleton].
    + intros refs n ty f2 f3 r [Hnd Hdoc] Hr.
      apply make_reference_fields in Hr as (Hn & Hd & _).
      destruct (merge_reference_cases refs n r)
        as [[Hnone ->] | (i & ex & (Hi & Hex & _) & [(_ & _ & ->) | [(_ & _ & ->) | (_ & Hex' & _)]])].
      * split.
        -- rewrite fmap_app. apply NoDup_app. split; [done|]. split; [|apply NoDup_singleton].
           intros x Hx ->%list_elem_of_singleton.
           apply list_elem_of_fmap in Hx as (y & Hy & Hin).
           apply (Hnone y Hin). congruence.
        -- apply Forall_app. split; [done|]. by apply Forall_singleton.
      * split.
        -- rewrite list_fmap_insert. rewrite list_insert_id; [done|].
           rewrite list_lookup_fmap, Hi. done.
        -- apply Forall_insert; [done|]. simpl.
           rewrite Forall_forall in Hdoc. apply Hdoc.
           apply list_elem_of_lookup. eauto.
      * done.
      * rewrite Forall_forall in Hdoc.
        rewrite (Hdoc ex) in Hex'; [done|]. apply list_elem_of_lookup. eauto.
Qed.

(** *** Located in one way *)

(** C3, as the code has it: a reference made from an entry of type 0, 1 or 2
    is located in exactly one way. Filling the compressed-object fields into
    an existing reference overwrites [parent_stream_object_number] and
    [index_in_parent_stream] and leaves [byte_offset] as it is. So in the
    list that [read] returns a reference that has both a byte offset and a
    parent stream is an in-use reference of generation 0 (made from a type 1
    entry and filled from a type 2 entry); every other one is located in at
    most one way. *)
Theorem located_one_way_unless_filled doc xref_stream refs :
  read doc xref_stream = Ok refs ->
  (forall r, r ∈ refs ->
      located_one_way r \/
      (is_in_use r = true /\ generation_number r = 0)) /\
  (forall n ty f2 f3 r, make_reference doc n ty f2 f3 = Ok r ->
      located_one_way r /\
      (byte_offset r = None <-> is_Some (parent_stream_object_number r))) /\
  (forall existing new,
      byte_offset (fill_compressed existing new) = byte_offset existing /\
      parent_stream_object_number (fill_compressed existing new)
      = parent_stream_object_number new).
Proof.
  intros Hread. split; [|split].
  - pose proof (read_invariant
      (Forall (fun r => located_one_way r \/
                        (is_in_use r = true /\ generation_number r = 0)))
      doc xref_stream refs) as Hinv.
    apply Forall_forall. apply Hinv; [| | exact Hread]; clear.
    + apply Forall_singleton. left. by left.
    + intros refs n ty f2 f3 r Hall Hr.
      apply make_reference_fields in Hr as (Hn & Hd & Hloc).
      destruct (merge_reference_cases refs n r)
        as [[_ ->] | (i & ex & (Hi & _ & _) & [(Hu & Hg & ->) | [(_ & _ & ->) | (_ & _ & ->)]])].
      * apply Forall_app. split; [done|]. apply Forall_singleton. left.
        destruct Hloc as [(_ & ? & _) | (? & _)]; [by right | by left].
      * apply Forall_insert; [done|]. unfold located_one_way. simpl.
        destruct Hloc as [(_ & -> & _) | (_ & _ & _ & Hg0 & _)].
        -- left. by right.
        -- right. split; [done | congruence].
      * done.
      * apply Forall_app. split; [done|]. apply Forall_singleton. left.
        destruct Hloc as [(_ & ? & _) | (? & _)]; [by right | by left].
  - intros n ty f2 f3 r Hr.
    apply make_reference_fields in Hr as (_ & _ & [([b Hb] & Hp & _) | (Hb & Hp & _)]).
    + split; [by right|]. rewrite Hb, Hp. split; [done | by intros [? ?]].
    + split; [by left|]. done.
  - done.
Qed.

(** *** The head of the free list *)



(** *** Subsections *)

(** Within one subsection the entries are read one after the other: after
    [k] entries the pointer has advanced by [k * (w1 + w2 + w3)]. *)
Lemma read_entries_advance doc w1 w2 w3 bytes start k : forall i refs bptr refs' bptr',
  read_entries doc [w1; w2; w3] bytes start k i (refs, bptr) = Ok (refs', bptr') ->
  bptr' = (bptr + k * (Z.to_nat w1 + Z.to_nat w2 + Z.to_nat w3))%nat.
Proof.
  induction k as [|k IH]; intros i refs bptr refs' bptr' H; simpl in H.
  - inversion H. lia.
  - apply bind_Ok in H as ([refs1 bptr1] & H1 & H). apply IH in H.
    unfold read_entry in H1.
    apply bind_Ok in H1 as ([[[ty f2] f3] b] & Hd & H1).
    apply bind_Ok in H1 as (r & _ & H1). inversion H1; subst.
    apply decode_entry_advance in Hd. lia.
Qed.

(** C2, at a stream with two subsections: widths [[1 1 1]], index
    [[1 1 5 1]], entries [01 0a 00] and [01 14 00]. The entry of object 5 is
    the second entry of the stream and its bytes are those from 3 to 6, which
    give the byte offset 20; [read] sets the byte pointer back to 0 for the
    second subsection and gives object 5 the byte offset 10 of the first
    entry. *)
Theorem second_subsection_read_from_byte_zero :
  let bytes := [x01; x0a; x00; x01; x14; x00]%byte in
  read (Some 1%nat)
    (mkXRefStream (Some [HDecimal 1; HDecimal 1; HDecimal 1]) (Some (HDecimal 6))
       (Some [HDecimal 1; HDecimal 1; HDecimal 5; HDecimal 1]) bytes)
  = Ok [free_list_head (Some 1%nat);
        mkReference (Some 1) 0 None None (Some 10) true (Some 1%nat);
        mkReference (Some 5) 0 None None (Some 10) true (Some 1%nat)] /\
  decode_entry [1; 1; 1] bytes (1 * (1 + 1 + 1)) = Ok (1, 20, 0, 6%nat).
Proof. vm_compute. done. Qed.

End XrefProperties.

(** *** The statements at concrete streams *)



(** Index [[0 2 1 1]]: object 1 is first given by the type 1 entry [01 32 00]
    and then, in the second subsection, by the type 2 entry [02 07 03]. The
    one reference of object 1 ends with the byte offset 50 and the parent
    stream 7. *)
Lemma filled_reference_located_twice :
  let r := mkReference (Some 1) 0 (Some 7) (Some 3) (Some 50) true (Some 1%nat) in
  read (Some 1%nat)
    (mkXRefStream (Some [HDecimal 1; HDecimal 1; HDecimal 1]) (Some (HDecimal 2))
       (Some [HDecimal 0; HDecimal 2; HDecimal 1; HDecimal 1])
       [x02; x07; x03; x01; x32; x00]%byte)
  = Ok [free_list_head (Some 1%nat); r] /\
  ~ located_one_way r.
Proof.
  split; [vm_compute; reflexivity|]. intros [H | H]; discriminate.
Qed.

Lemma located_one_way_unless_filled_witness :
  let refs := [free_list_head (Some 1%nat);
               mkReference (Some 1) 0 (Some 7) (Some 3) (Some 50) true (Some 1%nat)] in
  (forall r, r ∈ refs ->
      located_one_way r \/ (is_in_use r = true /\ generation_number r = 0)) /\
  (forall n ty f2 f3 r, make_reference (Some 1%nat) n ty f2 f3 = Ok r ->
      located_one_way r /\
      (byte_offset r = None <-> is_Some (parent_stream_object_number r))) /\
  (forall existing new,
      byte_offset (fill_compressed existing new) = byte_offset existing /\
      parent_stream_object_number (fill_compressed existing new)
      = parent_stream_object_number new).
Proof.
  apply (located_one_way_unless_filled (Some 1%nat)
    (mkXRefStream (Some [HDecimal 1; HDecimal 1; HDecimal 1]) (Some (HDecimal 2))
       (Some [HDecimal 0; HDecimal 2; HDecimal 1; HDecimal 1])
       [x02; x07; x03; x01; x32; x00]%byte)).
  vm_compute. reflexivity.
Defined.

(** Without a root document an entry for object 0, which the list already
    has, is appended. *)
Lemma present_number_appended_again :
  let new := mkReference (Some 0) 0 None None (Some 0) false None in
  find_existing [free_list_head None] 0 = Some (0%nat, free_list_head None) /\
  merge_reference [free_list_head None] 0 new = [free_list_head None; new] /\
  read None (mkXRefStream (Some [HDecimal 1; HDecimal 1; HDecimal 1])
               (Some (HDecimal 1)) None [x00; x00; x00]%byte)
  = Ok [free_list_head None; new].
Proof. vm_compute. done. Qed.



Lemma zero_width_fields_default_witness :
  exists refs,
    read None (mkXRefStream (Some [HDecimal 1; HDecimal 0; HDecimal 0])
                 (Some (HDecimal (Z.of_nat 2))) None [x01; x02]%byte) = Ok refs.
Proof.
  apply (zero_width_fields_default None 2 [x01; x02]%byte).
  - simpl. lia.
  - simpl. repeat constructor; vm_compute; discriminate.
Defined.

(** * Properties of [WriteDictionaryTransformer.transform] *)

(** ** References and the heap *)

Lemma option_Z_eqb_eq (a b : option Z) : option_Z_eqb a b = true <-> a = b.
Proof.
  destruct a, b; simpl; try (split; congruence).
  rewrite Z.eqb_eq. split; congruence.
Qed.

Lemma option_nat_eqb_eq (a b : option nat) : option_nat_eqb a b = true <-> a = b.
Proof.
  destruct a, b; simpl; try (split; congruence).
  rewrite Nat.eqb_eq. split; congruence.
Qed.

Lemma Reference_eqb_eq (a b : Reference) : Reference_eqb a b = true <-> a = b.
Proof.
  unfold Reference_eqb. rewrite !andb_true_iff, !option_Z_eqb_eq, option_nat_eqb_eq,
    Z.eqb_eq, Bool.eqb_true_iff.
  destruct a, b; simpl. split.
  - intros [[[[[[-> ->] ->] ->] ->] ->] ->]. reflexivity.
  - intros [= -> -> -> -> -> -> ->]. done.
Qed.

Lemma ref_in_true (r : Reference) (l : list Reference) : ref_in r l = true <-> r ∈ l.
Proof.
  unfold ref_in. rewrite existsb_exists. split.
  - intros (x & Hx & ->%Reference_eqb_eq). by apply list_elem_of_In.
  - intros H. exists r. split; [by apply list_elem_of_In | by apply Reference_eqb_eq].
Qed.

Lemma ref_in_false (r : Reference) (l : list Reference) : ref_in r l = false <-> r ∉ l.
Proof. rewrite <- ref_in_true. destruct (ref_in r l); split; congruence. Qed.

Lemma fmap_alter_same {A B} (f : A -> B) (g : A -> A) (i : nat) (l : list A) :
  (forall x, f (g x) = f x) -> f <$> alter g i l = f <$> l.
Proof.
  intros Hfg. apply list_eq. intros j.
  rewrite !list_lookup_fmap, list_lookup_alter.
  case_decide; subst; [|done]. destruct (l !! j); simpl; [|done]. by rewrite Hfg.
Qed.

Lemma shape_set_reference l r w : shape (set_reference l r w) = shape w.
Proof. unfold shape. simpl. by apply fmap_alter_same. Qed.

Lemma shape_length w : length (shape w) = length (heap w).
Proof. unfold shape. by rewrite length_fmap. Qed.

Lemma shape_lookup w l o :
  heap w !! l = Some o -> shape w !! l = Some (kind o, items o).
Proof. intros H. unfold shape. by rewrite list_lookup_fmap, H. Qed.

Lemma shape_lookup_inv w l k its :
  shape w !! l = Some (k, its) ->
  exists o, heap w !! l = Some o /\ kind o = k /\ items o = its.
Proof.
  unfold shape. rewrite list_lookup_fmap. destruct (heap w !! l) as [o|]; [|done].
  intros [= <- <-]. eauto.
Qed.

Lemma back_reference_set_reference l r w l' :
  back_reference (set_reference l r w) l'
  = if decide (l = l') then (if decide (l < length (heap w))%nat then Some r else None)
    else back_reference w l'.
Proof.
  unfold back_reference. simpl.
  destruct (decide (l = l')) as [<-|Hne].
  - rewrite list_lookup_alter_eq.
    destruct (decide (l < length (heap w))%nat) as [Hl|Hl].
    + destruct (lookup_lt_is_Some_2 _ _ Hl) as [o ->]. done.
    + rewrite lookup_ge_None_2 by lia. done.
  - by rewrite list_lookup_alter_ne.
Qed.

(** The two ways of [get_reference]: the numbered back-reference the object
    has, or a new reference with the next number. *)
Lemma get_reference_cases l w r w' :
  get_reference l w = Some (r, w') ->
  (back_reference w l = Some r /\ is_Some (object_number r) /\ w' = w) \/
  ((forall r0, back_reference w l = Some r0 -> object_number r0 = None) /\
   (l < length (heap w))%nat /\
   r = new_reference (next_object_number w) /\
   w' = mkState (heap (set_reference l r w)) (destination w)
          (duplicate_references w) (next_object_number w + 1)).
Proof.
  unfold get_reference, back_reference. intros H.
  destruct (heap w !! l) as [o|] eqn:Ho; simpl in *; [|done].
  assert (l < length (heap w))%nat by (by eapply lookup_lt_Some).
  destruct (reference o) as [[[n|] g p i b u d]|]; inversion H; subst; clear H.
  - left. eauto.
  - right. split; [by intros r0 [= <-]|]. done.
  - right. done.
Qed.

Lemma get_reference_total l w :
  (l < length (heap w))%nat -> exists r w', get_reference l w = Some (r, w').
Proof.
  intros Hl. destruct (lookup_lt_is_Some_2 _ _ Hl) as [o Ho].
  unfold get_reference. rewrite Ho. simpl.
  destruct (reference o) as [[[n|] g p i b u d]|]; eauto.
Qed.

Lemma numbering_refl w : numbering w w.
Proof. unfold numbering. repeat split; eauto; lia. Qed.

Lemma numbering_trans w1 w2 w3 : numbering w1 w2 -> numbering w2 w3 -> numbering w1 w3.
Proof.
  intros (Hs & Hd & Hu & Hn & Hk & Hb) (Hs' & Hd' & Hu' & Hn' & Hk' & Hb').
  unfold numbering. repeat split; try congruence; try lia.
  - intros l r Hr Hnum. eauto.
  - intros l r' Hr'. destruct (Hb' l r' Hr') as [H | H]; [|by right]. eauto.
Qed.

Lemma get_reference_numbering l w r w' :
  get_reference l w = Some (r, w') ->
  numbering w w' /\ is_Some (object_number r) /\ back_reference w' l = Some r /\
  (forall r0, back_reference w l = Some r0 -> is_Some (object_number r0) -> r = r0).
Proof.
  intros H. apply get_reference_cases in H
    as [(Hb & Hnum & ->) | (Hnone & Hl & -> & ->)].
  - split; [apply numbering_refl|]. split; [done|]. split; [done|].
    intros r0 Hr0 _. congruence.
  - split; [|split; [by eexists | split]].
    + unfold numbering. simpl.
      split; [apply shape_set_reference|]. do 2 (split; [done|]). split; [lia|]. split.
      * intros l' r Hr Hnum.
        change (back_reference (set_reference l (new_reference (next_object_number w)) w) l'
                = Some r).
        rewrite back_reference_set_reference.
        destruct (decide (l = l')) as [<-|]; [|done].
        apply Hnone in Hr. rewrite Hr in Hnum. by destruct Hnum.
      * intros l' r'.
        change (back_reference (set_reference l (new_reference (next_object_number w)) w) l'
                = Some r' -> back_reference w l' = Some r' \/ exists n, r' = new_reference n).
        rewrite back_reference_set_reference.
        destruct (decide (l = l')) as [<-|]; [|by left].
        rewrite decide_True by done. intros [= <-]. right. eauto.
    + change (back_reference (set_reference l (new_reference (next_object_number w)) w) l
              = Some (new_reference (next_object_number w))).
      rewrite back_reference_set_reference. by rewrite !decide_True.
    + intros r0 Hr0 Hnum. apply Hnone in Hr0. rewrite Hr0 in Hnum. by destruct Hnum.
Qed.

(** ** The loop of lines 41-51 *)

Lemma dict_set_fresh (d : Dictionary) k v : k ∉ d.*1 -> dict_set d k v = d ++ [(k, v)].
Proof.
  induction d as [|[k' v'] d IH]; simpl; [done|].
  intros Hk. apply not_elem_of_cons in Hk as [Hne Hk].
  destruct (String.eqb k' k) eqn:E.
  - apply String.eqb_eq in E. congruence.
  - by rewrite IH.
Qed.

Lemma rewrite_children_numbering its : forall out q w out' q' w',
  rewrite_children its out q w = Some (out', q', w') ->
  numbering w w' /\ q' = q ++ composites its.
Proof.
  induction its as [|[k v] its IH]; intros out q w out' q' w' H; simpl in H.
  - inversion H; subst. split; [apply numbering_refl|]. unfold composites. simpl.
    by rewrite app_nil_r.
  - destruct v as [s|r|c].
    + apply IH in H as [? ->]. done.
    + apply IH in H as [? ->]. done.
    + destruct (get_reference c w) as [[r w1]|] eqn:Hg; simpl in H; [|done].
      apply IH in H as [Hn ->]. apply get_reference_numbering in Hg as (Hn1 & _).
      split; [by eapply numbering_trans|]. unfold composites. simpl.
      by rewrite <- app_assoc.
Qed.

Lemma rewritten_numbering w0 w w' item out_item :
  numbering w0 w -> rewritten w w' item out_item -> rewritten w0 w' item out_item.
Proof.
  intros (_ & _ & _ & _ & Hk & _) [Hkey H]. split; [done|].
  destruct item as [k [s|r|c]]; simpl in *; try done.
  destruct H as (r & -> & Hnum & Hb & Hold). exists r. repeat split; try done.
  intros r0 Hr0 Hnum0. apply Hold; [|done]. by apply Hk.
Qed.

(** Every entry of the input has its entry in the output, in the same order:
    a composite child is replaced by a numbered reference, which is its
    back-reference from then on; any other value is kept. *)
Lemma rewrite_children_out its : forall out q w out' q' w',
  NoDup (out.*1 ++ its.*1) ->
  rewrite_children its out q w = Some (out', q', w') ->
  exists new, out' = out ++ new /\ Forall2 (rewritten w w') its new.
Proof.
  induction its as [|[k v] its IH]; intros out q w out' q' w' Hnd H; simpl in H.
  - inversion H; subst. exists []. by rewrite app_nil_r.
  - assert ((k ∉ out.*1) /\ NoDup ((out ++ [(k, v)]).*1 ++ its.*1)) as [Hk Hnd'].
    { simpl in Hnd. rewrite fmap_app. simpl. rewrite <- app_assoc. simpl.
      split; [|done]. apply NoDup_app in Hnd as (_ & Hd & _).
      intros Hin. apply (Hd k Hin). left. }
    assert (forall v', (out ++ [(k, v')]).*1 = (out ++ [(k, v)]).*1) as Hkeys.
    { intros v'. by rewrite !fmap_app. }
    destruct v as [s|r|c].
    + rewrite dict_set_fresh in H by done.
      apply IH in H as (new & -> & Hall); [|done].
      exists ((k, Leaf s) :: new). rewrite <- app_assoc. split; [done|].
      constructor; [done | done].
    + rewrite dict_set_fresh in H by done.
      apply IH in H as (new & -> & Hall); [|done].
      exists ((k, RefValue r) :: new). rewrite <- app_assoc. split; [done|].
      constructor; [done | done].
    + destruct (get_reference c w) as [[r w1]|] eqn:Hg; simpl in H; [|done].
      rewrite dict_set_fresh in H by done.
      pose proof H as Hrest. apply rewrite_children_numbering in Hrest as [Hn1 _].
      apply IH in H as (new & -> & Hall); [|by rewrite Hkeys].
      apply get_reference_numbering in Hg as (Hn & Hnum & Hb & Hold).
      exists ((k, RefValue r) :: new). rewrite <- app_assoc. split; [done|].
      constructor.
      * split; [done|]. simpl. exists r. repeat split; try done.
        destruct Hn1 as (_ & _ & _ & _ & Hk1 & _). by apply Hk1.
      * eapply Forall2_impl; [exact Hall|]. intros x y. by apply rewritten_numbering.
Qed.

Lemma rewrite_children_total its : forall out q w,
  (forall k c, (k, Composite c) ∈ its -> (c < length (heap w))%nat) ->
  exists out' q' w', rewrite_children its out q w = Some (out', q', w').
Proof.
  induction its as [|[k v] its IH]; intros out q w Hc; simpl; [eauto|].
  assert (forall w', length (heap w') = length (heap w) ->
            forall k c, (k, Composite c) ∈ its -> (c < length (heap w'))%nat) as Hc'.
  { intros w' Hlen k' c Hin. rewrite Hlen. apply (Hc k'). by right. }
  destruct v as [s|r|c]; [apply IH; by apply Hc' | apply IH; by apply Hc' |].
  destruct (get_reference_total c w) as (r & w1 & Hg); [apply (Hc k); left|].
  rewrite Hg. simpl. apply IH. apply Hc'.
  apply get_reference_numbering in Hg as ((Hs & _) & _).
  by rewrite <- !shape_length, Hs.
Qed.

Lemma rewritten_not_composite w w' its new :
  Forall2 (rewritten w w') its new -> Forall (fun kv => is_composite kv.2 = false) new.
Proof.
  induction 1 as [|[k v] [k' v'] its new [_ H] _ IH]; constructor; [|done].
  simpl in *. destruct v; simpl in H; try (by subst).
  destruct H as (r & -> & _). done.
Qed.

(** ** Writing *)

Lemma write_write a b w : write b (write a w) = write (a ++ b) w.
Proof. unfold write. simpl. by rewrite app_assoc. Qed.

Lemma write_nil w : write [] w = w.
Proof. destruct w. unfold write. simpl. by rewrite app_nil_r. Qed.


Lemma back_reference_write cs w l : back_reference (write cs w) l = back_reference w l.
Proof. done. Qed.









(** ** What a pass preserves *)

Section PassInvariant.

Variable write_other : Kind -> loc -> State -> option State.

(** A property of the state that the steps of a pass keep. *)
Variable I : State -> Prop.

Hypothesis I_numbering : forall w w1, numbering w w1 -> I w -> I w1.
Hypothesis I_plain : forall cs w, Forall (fun c => is_plain c = true) cs -> I w -> I (write cs w).
Hypothesis I_begin : forall l w1 started w2,
  I w1 -> begin_object l (back_reference w1 l) w1 = Some (started, w2) ->
  I (write [DictOpen l] w2).
Hypothesis I_other : forall k c w w', write_other k c w = Some w' -> I w -> I w'.

Lemma write_items_preserves (rt : AnyPDFType -> State -> option State) :
  (forall v w w', rt v w = Some w' -> I w -> I w') ->
  forall out w w', write_items rt out w = Some w' -> I w -> I w'.
Proof.
  intros Hrt. induction out as [|[k v] out IH]; intros w w' H Hw; simpl in H.
  - by inversion H; subst.
  - destruct (rt (Leaf k) w) as [w1|] eqn:H1; simpl in H; [|done].
    destruct (rt v (write [Space] w1)) as [w2|] eqn:H2; simpl in H; [|done].
    apply Hrt in H1; [|done].
    apply Hrt in H2; [|apply I_plain; [by repeat constructor | done]].
    eapply IH; [exact H|]. destruct out; [done|].
    apply I_plain; [by repeat constructor | done].
Qed.

Lemma transform_queue_preserves (rt : AnyPDFType -> State -> option State) :
  (forall v w w', rt v w = Some w' -> I w -> I w') ->
  forall q w w', transform_queue rt q w = Some w' -> I w -> I w'.
Proof.
  intros Hrt. induction q as [|e q IH]; intros w w' H Hw; simpl in H.
  - by inversion H; subst.
  - destruct (rt e w) as [w1|] eqn:H1; simpl in H; [|done].
    eapply IH; [exact H|]. by eapply Hrt.
Qed.

Lemma transform_preserves (rt : AnyPDFType -> State -> option State) :
  (forall v w w', rt v w = Some w' -> I w -> I w') ->
  forall l w w' ret, transform rt l w = Some (w', ret) -> I w -> I w'.
Proof.
  intros Hrt l w w' ret H Hw. unfold transform in H.
  destruct (heap w !! l) as [o|] eqn:Ho; simpl in H; [|done].
  destruct (rewrite_children (items o) [] [] w) as [[[out q] w1]|] eqn:Hr; simpl in H; [|done].
  apply rewrite_children_numbering in Hr as [Hn _].
  assert (I w1) as Hw1 by (by eapply I_numbering).
  destruct (heap w1 !! l) as [o1|] eqn:Ho1; simpl in H; [|done].
  assert (back_reference w1 l = reference o1) as Hb.
  { unfold back_reference. by rewrite Ho1. }
  rewrite <- Hb in H.
  destruct (begin_object l (back_reference w1 l) w1) as [[started w2]|] eqn:Hbeg.
  - unfold emit in H.
    destruct (write_items rt out (write [DictOpen l] w2)) as [w3|] eqn:Hit; simpl in H; [|done].
    destruct (transform_queue rt q _) as [w4|] eqn:Hq; simpl in H; [|done].
    inversion H; subst. eapply transform_queue_preserves; [exact Hrt | exact Hq |].
    assert (I w3) as Hw3.
    { eapply write_items_preserves; [exact Hrt | exact Hit |]. by eapply I_begin. }
    destruct started.
    + unfold end_object. rewrite write_write. apply I_plain; [by repeat constructor | done].
    + apply I_plain; [by repeat constructor | done].
  - by inversion H; subst.
Qed.

Lemma root_transform_preserves fuel : forall v w w',
  root_transform write_other fuel v w = Some w' -> I w -> I w'.
Proof.
  induction fuel as [|fuel IH]; intros v w w' H Hw; simpl in H; [done|].
  destruct v as [s|r|l].
  - inversion H; subst. apply I_plain; [by repeat constructor | done].
  - inversion H; subst. apply I_plain; [by repeat constructor | done].
  - destruct (heap w !! l) as [o|] eqn:Ho; simpl in H; [|done].
    destruct (kind o); try (by eapply I_other).
    destruct (transform (root_transform write_other fuel) l w) as [[w1 ret]|] eqn:Ht;
      simpl in H; [|done].
    inversion H; subst. by eapply transform_preserves.
Qed.

Lemma write_pass_preserves fuel l w w' ret :
  write_pass write_other fuel l w = Some (w', ret) -> I w -> I w'.
Proof. apply transform_preserves, root_transform_preserves. Qed.

End PassInvariant.

(** ** Starting an object *)

Lemma begin_object_cases l ref w started w2 :
  begin_object l ref w = Some (started, w2) ->
  (ref = None /\ started = false /\ w2 = w) \/
  (exists r, ref = Some r /\ (r ∉ duplicate_references w) /\
     ((started = true /\ is_Some (object_number r) /\ byte_offset r = None /\
       w2 = append_duplicate (start_object l r w).1 (start_object l r w).2) \/
      (started = false /\ (object_number r = None \/ is_Some (byte_offset r)) /\
       w2 = append_duplicate r w))).
Proof.
  unfold begin_object. destruct ref as [r|]; [|intros [= <- <-]; by left].
  destruct (ref_in r (duplicate_references w)) eqn:Hin; [done|].
  apply ref_in_false in Hin. intros H. right. exists r. split; [done|]. split; [done|].
  destruct (object_number r) as [n|] eqn:Hn.
  - destruct (byte_offset r) as [b|] eqn:Hb.
    + right. inversion H; subst. eauto.
    + left. inversion H; subst. eauto.
  - right. inversion H; subst. eauto.
Qed.

Lemma begin_object_shape l ref w started w2 :
  begin_object l ref w = Some (started, w2) -> shape w2 = shape w.
Proof.
  intros H. apply begin_object_cases in H
    as [(_ & _ & ->) | (r & _ & _ & [(_ & _ & _ & ->) | (_ & _ & ->)])]; try done.
  apply shape_set_reference.
Qed.

(** ** The input dictionary *)


(** ** The output dictionary and the queue *)

Lemma root_transform_value write_other fuel v w :
  is_composite v = false ->
  root_transform write_other (S fuel) v w = Some (write (value_chunks v) w).
Proof. by destruct v. Qed.

Lemma write_items_chunks write_other fuel out : forall w,
  Forall (fun kv => is_composite kv.2 = false) out ->
  write_items (root_transform write_other (S fuel)) out w
  = Some (write (item_chunks out) w).
Proof.
  induction out as [|[k v] out IH]; intros w Hall.
  - simpl. by rewrite write_nil.
  - apply Forall_cons in Hall as [Hv Hall]. simpl in Hv.
    cbn [write_items]. rewrite (root_transform_value _ _ (Leaf k)) by done.
    cbn [mbind option_bind]. rewrite (root_transform_value _ _ v) by done.
    cbn [mbind option_bind]. destruct out as [|kv out].
    + simpl. rewrite !write_write. simpl. by rewrite app_nil_r.
    + rewrite IH by done. rewrite !write_write. do 2 f_equal.
Qed.

(** The equation of [transform] once the loop of lines 41-51 has run. *)
Lemma transform_after_loop (rt : AnyPDFType -> State -> option State) l w o out q w1 :
  heap w !! l = Some o ->
  rewrite_children (items o) [] [] w = Some (out, q, w1) ->
  transform rt l w
  = match begin_object l (back_reference w1 l) w1 with
    | None => Some (w1, None)
    | Some (started, w2) => emit rt l out q started w2
    end.
Proof.
  intros Ho Hr. unfold transform. rewrite Ho. simpl. rewrite Hr. simpl.
  pose proof Hr as Hn. apply rewrite_children_numbering in Hn as [(Hs & _) _].
  pose proof (shape_lookup _ _ _ Ho) as Hl. rewrite <- Hs in Hl.
  apply shape_lookup_inv in Hl as (o1 & Ho1 & _).
  unfold back_reference. rewrite Ho1. done.
Qed.


(** ** Headers *)










(** ** The order of the states of a pass *)

Lemma extends_refl w : extends w w.
Proof.
  unfold extends. split; [done|]. split; [exists []; by rewrite app_nil_r|].
  split; [exists []; by rewrite app_nil_r|]. eauto.
Qed.

Lemma extends_trans w1 w2 w3 : extends w1 w2 -> extends w2 w3 -> extends w1 w3.
Proof.
  intros (Hs & [d Hd] & [u Hu] & Hb) (Hs' & [d' Hd'] & [u' Hu'] & Hb').
  unfold extends. split; [congruence|].
  split; [exists (d ++ d'); rewrite Hd', Hd; by rewrite app_assoc|].
  split; [exists (u ++ u'); rewrite Hu', Hu; by rewrite app_assoc|].
  intros l r Hr Hnum. destruct (Hb l r Hr Hnum) as (r2 & Hr2 & Hn2 & Hg2 & Hin2).
  destruct (Hb' l r2 Hr2) as (r3 & Hr3 & Hn3 & Hg3 & Hin3); [by rewrite Hn2|].
  exists r3. split; [done|]. split; [congruence|]. split; [congruence|].
  intros Hin. specialize (Hin2 Hin). subst r2. apply Hin3.
  rewrite Hu. apply elem_of_app. by left.
Qed.

Lemma numbering_extends w w1 : numbering w w1 -> extends w w1.
Proof.
  intros (Hs & Hd & Hu & _ & Hk & _). unfold extends. split; [done|].
  split; [exists []; by rewrite app_nil_r|]. split; [exists []; by rewrite app_nil_r|].
  intros l r Hr Hnum. exists r. split; [by apply Hk | done].
Qed.

Lemma write_extends cs w : extends w (write cs w).
Proof.
  unfold extends. split; [done|]. split; [by exists cs|].
  split; [exists []; by rewrite app_nil_r|]. eauto.
Qed.

Lemma begin_object_extends l w1 started w2 :
  begin_object l (back_reference w1 l) w1 = Some (started, w2) -> extends w1 w2.
Proof.
  intros Hb. pose proof (begin_object_shape _ _ _ _ _ Hb) as Hs.
  apply begin_object_cases in Hb
    as [(_ & _ & ->) | (r & Hr & Hnot & [(_ & _ & _ & ->) | (_ & _ & ->)])].
  - apply extends_refl.
  - unfold extends. split; [done|]. split; [by eexists|]. split; [by eexists|].
    intros l' r0 Hr0 Hnum.
    change (exists r', back_reference (set_reference l (start_object l r w1).1 w1) l' = Some r' /\
              object_number r' = object_number r0 /\
              generation_number r' = generation_number r0 /\
              (r0 ∈ duplicate_references w1 -> r' = r0)).
    rewrite back_reference_set_reference.
    destruct (decide (l = l')) as [<-|]; [|by exists r0].
    assert (r0 = r) as -> by congruence.
    rewrite decide_True.
    + eexists. split; [done|]. simpl. by repeat split.
    + unfold back_reference in Hr. destruct (heap w1 !! l) eqn:E; [|done].
      by eapply lookup_lt_Some.
  - unfold extends. split; [done|]. split; [exists []; by rewrite app_nil_r|].
    split; [by eexists|]. intros l' r0 Hr0 Hnum. by exists r0.
Qed.

Lemma done_b_true w l :
  done_b w l = true <->
  exists r, back_reference w l = Some r /\ is_Some (object_number r) /\
            r ∈ duplicate_references w.
Proof.
  unfold done_b. destruct (back_reference w l) as [r|]; [|split; [done | by intros (? & ? & _)]].
  rewrite andb_true_iff, bool_decide_eq_true, ref_in_true. split.
  - intros [? ?]. by exists r.
  - intros (r' & [= <-] & ? & ?). done.
Qed.

Lemma extends_done w w' l : extends w w' -> done_b w l = true -> done_b w' l = true.
Proof.
  intros (_ & _ & [u Hu] & Hb) (r & Hr & Hnum & Hin)%done_b_true.
  apply done_b_true. destruct (Hb l r Hr Hnum) as (r' & Hr' & Hn & _ & Heq).
  specialize (Heq Hin). subst r'. exists r. split; [done|]. split; [done|].
  rewrite Hu. apply elem_of_app. by left.
Qed.

Lemma extends_queued w w' v : extends w w' -> queued w v -> queued w' v.
Proof.
  intros (_ & _ & _ & Hb). destruct v as [s|r|c]; simpl; try done.
  intros (r & Hr & Hnum). destruct (Hb c r Hr Hnum) as (r' & Hr' & Hn & _).
  exists r'. split; [done|]. by rewrite Hn.
Qed.

Lemma extends_length w w' : extends w w' -> length (heap w') = length (heap w).
Proof. intros (Hs & _). by rewrite <- !shape_length, Hs. Qed.

(** ** Counting the objects that are not done *)

Lemma filter_length_le {A} (P Q : A -> Prop) `{!forall x, Decision (P x)}
    `{!forall x, Decision (Q x)} (l : list A) :
  (forall x, x ∈ l -> Q x -> P x) ->
  (length (filter Q l) <= length (filter P l))%nat.
Proof.
  induction l as [|x l IH]; intros HQP; [done|].
  rewrite !filter_cons.
  assert (length (filter Q l) <= length (filter P l))%nat as Hle.
  { apply IH. intros y Hy. apply HQP. by right. }
  destruct (decide (Q x)) as [Hq|Hq]; destruct (decide (P x)) as [Hp|Hp]; simpl; try lia.
  exfalso. apply Hp, HQP; [left | done].
Qed.

Lemma filter_length_lt {A} (P Q : A -> Prop) `{!forall x, Decision (P x)}
    `{!forall x, Decision (Q x)} (l : list A) (x0 : A) :
  (forall x, x ∈ l -> Q x -> P x) -> x0 ∈ l -> P x0 -> ~ Q x0 ->
  (length (filter Q l) < length (filter P l))%nat.
Proof.
  induction l as [|x l IH]; intros HQP Hin Hp0 Hq0; [by apply elem_of_nil in Hin|].
  rewrite !filter_cons.
  assert (forall y, y ∈ l -> Q y -> P y) as H' by (intros y Hy; apply HQP; by right).
  pose proof (filter_length_le P Q l H') as Hle.
  apply elem_of_cons in Hin as [<- | Hin].
  - destruct (decide (Q x0)); [done|]. destruct (decide (P x0)); [|done]. simpl. lia.
  - specialize (IH H' Hin Hp0 Hq0).
    destruct (decide (Q x)) as [Hq|Hq]; destruct (decide (P x)) as [Hp|Hp]; simpl; try lia.
    exfalso. apply Hp, HQP; [left | done].
Qed.

Lemma extends_pending w w' : extends w w' -> (pending w' <= pending w)%nat.
Proof.
  intros He. unfold pending. rewrite (extends_length _ _ He).
  apply filter_length_le. intros l _ Hl.
  destruct (done_b w l) eqn:E; [|done].
  apply (extends_done _ _ _ He) in E. congruence.
Qed.

Lemma extends_pending_lt w w' l :
  extends w w' -> (l < length (heap w))%nat ->
  done_b w l = false -> done_b w' l = true ->
  (pending w' < pending w)%nat.
Proof.
  intros He Hl Hf Ht. unfold pending. rewrite (extends_length _ _ He).
  apply (filter_length_lt _ _ _ l); [| | done | congruence].
  - intros x _ Hx. destruct (done_b w x) eqn:E; [|done].
    apply (extends_done _ _ _ He) in E. congruence.
  - apply elem_of_seq. lia.
Qed.

(** ** The states of a pass over dictionaries *)





Lemma begin_object_done l w1 started w2 :
  queued w1 (Composite l) ->
  begin_object l (back_reference w1 l) w1 = Some (started, w2) ->
  done_b w1 l = false /\ done_b w2 l = true.
Proof.
  intros (r & Hr & Hnum) Hb. rewrite Hr in Hb.
  assert (l < length (heap w1))%nat as Hl.
  { unfold back_reference in Hr. destruct (heap w1 !! l) eqn:E; [|done].
    by eapply lookup_lt_Some. }
  apply begin_object_cases in Hb
    as [([=] & _) | (r0 & [= <-] & Hnot & Hc)].
  split.
  - destruct (done_b w1 l) eqn:E; [|done].
    apply done_b_true in E as (r' & Hr' & _ & Hin). congruence.
  - apply done_b_true. destruct Hc as [(_ & _ & _ & ->) | (_ & _ & ->)].
    + exists (start_object l r w1).1. split; [|split].
      * change (back_reference (set_reference l (start_object l r w1).1 w1) l
                = Some (start_object l r w1).1).
        rewrite back_reference_set_reference. by rewrite !decide_True.
      * done.
      * simpl. apply elem_of_app. right. by apply list_elem_of_singleton.
    + exists r. split; [done|]. split; [done|].
      simpl. apply elem_of_app. right. by apply list_elem_of_singleton.
Qed.


Lemma rewritten_queued w w1 its out :
  Forall2 (rewritten w w1) its out -> Forall (queued w1) (composites its).
Proof.
  unfold composites.
  induction 1 as [|[k v] [k' v'] its out [_ H] _ IH]; simpl; [constructor|].
  destruct v as [s|r|c]; simpl in *; try done.
  constructor; [|done]. destruct H as (r & _ & Hnum & Hb & _). by exists r.
Qed.

Lemma rewritten_child w w1 its out k c :
  Forall2 (rewritten w w1) its out -> (k, Composite c) ∈ its ->
  exists r, (k, RefValue r) ∈ out /\ back_reference w1 c = Some r /\
            is_Some (object_number r).
Proof.
  induction 1 as [|[k1 v1] [k2 v2] its out [Hk H] _ IH]; intros Hin.
  - by apply elem_of_nil in Hin.
  - apply elem_of_cons in Hin as [[= <- <-] | Hin].
    + simpl in *. destruct H as (r & -> & Hnum & Hb & _). subst k2.
      exists r. split; [left | done].
    + destruct (IH Hin) as (r & Hr & Hrest). exists r. split; [by right | done].
Qed.

(** ** Termination *)


Lemma pending_write cs w : pending (write cs w) = pending w.
Proof. done. Qed.



(** ** A dictionary that contains itself *)


Lemma begin_object_None l r w :
  begin_object l (Some r) w = None -> r ∈ duplicate_references w.
Proof.
  unfold begin_object. destruct (ref_in r (duplicate_references w)) eqn:E.
  - intros _. by apply ref_in_true.
  - by destruct (object_number r), (byte_offset r).
Qed.




(** ** The statements at concrete graphs *)

(** The pass over [D]: both dictionaries are written once, [D] first, and the
    bytes are those of two indirect objects. *)
Example cycle_state_written :
  exists w' out_value,
    write_pass no_other_transformer 2 0 cycle_state = Some (w', Some out_value) /\
    String.concat "" (chunk_bytes <$> destination w')
    = ("1 0 obj" +:+ String (Ascii.ascii_of_nat 10)
         "<</Type /Catalog /Self 1 0 R /Kid 2 0 R>>" +:+ String (Ascii.ascii_of_nat 10)
         "endobj" +:+ String (Ascii.ascii_of_nat 10)
         "2 0 obj" +:+ String (Ascii.ascii_of_nat 10)
         "<</Parent 1 0 R>>" +:+ String (Ascii.ascii_of_nat 10)
         "endobj" +:+ String (Ascii.ascii_of_nat 10) "")%string.
Proof. eexists _, _. split; vm_compute; reflexivity. Qed.

(** Membership in the entries of a concrete dictionary, case by case. *)
Ltac children_of_example H :=
  repeat (apply elem_of_cons in H as [H | H];
          [try (inversion H; subst; simpl; lia) |]);
  try (by apply elem_of_nil in H).

Lemma cycle_state_well_formed : well_formed cycle_state.
Proof.
  intros l k its Hl. destruct l as [|[|l]]; simpl in Hl; [| |done];
    inversion Hl; subst; clear Hl.
  - split.
    + apply (bool_decide_unpack _). vm_compute. exact I.
    + intros key c Hin. simpl. children_of_example Hin.
  - split.
    + apply (bool_decide_unpack _). vm_compute. exact I.
    + intros key c Hin. simpl. children_of_example Hin.
Defined.

Lemma cycle_state_dictionaries : dictionaries_only cycle_state.
Proof.
  intros l k its Hl. destruct l as [|[|l]]; simpl in Hl; [| |done]; by inversion Hl.
Defined.






(** * Further properties of [StreamXREF.read] *)

(** ** Which exception *)








Lemma to_ints_Decimal l :
  forallb is_Decimal l = true -> exists zs, to_ints l = Ok zs /\ l = HDecimal <$> zs.
Proof.
  induction l as [|[z|] l IH]; simpl; intros H; [by exists [] | | done].
  destruct (IH H) as (zs & -> & ->). by exists (z :: zs).
Qed.

(** What [read] comes down to when it returns: the header is well formed and
    the loops have run over the index with the widths of [/W]. *)
Lemma read_Ok_inv doc xref_stream refs :
  read doc xref_stream = Ok refs ->
  exists widths,
    W xref_stream = Some (HDecimal <$> widths) /\
    read_subsections doc widths (DecodedBytes xref_stream) (index_of xref_stream)
      [free_list_head doc] = Ok refs.
Proof.
  unfold read, index_of. intros H.
  destruct (W xref_stream) as [w|]; [|done].
  destruct (forallb is_Decimal w) eqn:Hw; simpl in H; [|done].
  destruct (to_ints_Decimal w Hw) as (widths & Hz & ->). rewrite Hz in H. simpl in H.
  exists widths. split; [done|].
  destruct (Size xref_stream) as [[n|]|]; try done.
  destruct (Index xref_stream) as [index|]; simpl in H; [|done].
  apply bind_Ok in H as (index' & Hi & H).
  apply bind_Ok in Hi as ([] & _ & Hi). apply bind_Ok in Hi as (i0 & _ & Hi).
  apply bind_Ok in Hi as ([] & _ & Hi). apply bind_Ok in Hi as (i1 & _ & Hi).
  apply bind_Ok in Hi as ([] & _ & Hi). by inversion Hi; subst.
Qed.


(** ** The default index *)

(** X2: a stream without [/Index] is read as one subsection that starts at
    object 0 and has [/Size] entries: the result, or the exception, is that of
    the same stream with [/Index [0 Size]]. *)
Theorem index_defaults_to_size doc w size bytes :
  read doc (mkXRefStream w (Some (HDecimal size)) None bytes)
  = read doc (mkXRefStream w (Some (HDecimal size))
                (Some [HDecimal 0; HDecimal size]) bytes).
Proof.
  unfold read. simpl. destruct w as [w|]; [|done].
  destruct (negb (forallb is_Decimal w)); [done|].
  by destruct (to_ints w).
Qed.

(** ** Big-endian fields *)

Lemma big_endian_from_bounds bs : forall x k,
  0 <= x < 256 ^ Z.of_nat k ->
  0 <= big_endian_from x bs < 256 ^ Z.of_nat (k + length bs).
Proof.
  unfold big_endian_from.
  induction bs as [|b bs IH]; intros x k Hx; simpl.
  - by rewrite Nat.add_0_r.
  - replace (k + S (length bs))%nat with (S k + length bs)%nat by lia.
    apply IH. pose proof (byte_to_Z_range b).
    rewrite Nat2Z.inj_succ, Z.pow_succ_r by lia. nia.
Qed.

Lemma read_field_big_endian bytes w : forall x bptr v bptr',
  read_field bytes w x bptr = Ok (v, bptr') ->
  v = big_endian_from x (slice bytes bptr w) /\ length (slice bytes bptr w) = w.
Proof.
  unfold slice.
  induction w as [|w IH]; intros x bptr v bptr' H; simpl in H.
  - inversion H; subst. by rewrite take_0.
  - unfold index_list in H. destruct (bytes !! bptr) as [b|] eqn:Hb; simpl in H; [|done].
    apply IH in H as [-> Hlen].
    rewrite (drop_S _ _ _ Hb). simpl. rewrite Hlen. split; [|done].
    unfold big_endian_from. simpl. rewrite byte_land_255, Z.shiftl_mul_pow2 by lia.
    done.
Qed.

(** X3: a field of width [w] is the big-endian unsigned value of the [w] bytes
    at the pointer, so it lies between 0 and [256 ^ w]; the three fields of an
    entry are those of three consecutive runs of bytes, the type being 1 when
    its width is not positive. *)
Theorem fields_are_big_endian w1 w2 w3 bytes bptr ty f2 f3 bptr' :
  decode_entry [w1; w2; w3] bytes bptr = Ok (ty, f2, f3, bptr') ->
  let n1 := Z.to_nat w1 in
  let n2 := Z.to_nat w2 in
  let n3 := Z.to_nat w3 in
  ty = (if 0 <? w1 then big_endian (slice bytes bptr n1) else 1) /\
  f2 = big_endian (slice bytes (bptr + n1) n2) /\
  f3 = big_endian (slice bytes (bptr + n1 + n2) n3) /\
  (0 < w1 -> 0 <= ty < 256 ^ w1) /\
  0 <= f2 < 256 ^ Z.of_nat n2 /\
  0 <= f3 < 256 ^ Z.of_nat n3.
Proof.
  unfold decode_entry. simpl. intros H.
  apply bind_Ok in H as ([t b1] & H1 & H).
  apply bind_Ok in H as ([x2 b2] & H2 & H).
  apply bind_Ok in H as ([x3 b3] & H3 & H).
  inversion H; subst; clear H.
  assert (b1 = (bptr + Z.to_nat w1)%nat) as ->.
  { destruct (0 <? w1) eqn:Hw.
    - by apply read_field_advance in H1.
    - inversion H1; subst. apply Z.ltb_ge in Hw. lia. }
  pose proof (read_field_advance _ _ _ _ _ _ H2) as ->.
  apply read_field_big_endian in H2 as [-> Hl2].
  apply read_field_big_endian in H3 as [-> Hl3].
  assert (forall bs, 0 <= big_endian bs < 256 ^ Z.of_nat (length bs)) as Hbound.
  { intros bs. apply (big_endian_from_bounds bs 0 0%nat). simpl. lia. }
  split; [|split; [done | split; [done | split; [|split]]]].
  - destruct (0 <? w1); [|by inversion H1].
    by apply read_field_big_endian in H1 as [-> _].
  - intros Hw. assert ((0 <? w1) = true) as Hlt by (by apply Z.ltb_lt).
    rewrite Hlt in H1. apply read_field_big_endian in H1 as [-> Hl1].
    specialize (Hbound (slice bytes bptr (Z.to_nat w1))).
    rewrite Hl1, Z2Nat.id in Hbound by lia. done.
  - specialize (Hbound (slice bytes (bptr + Z.to_nat w1) (Z.to_nat w2))).
    by rewrite Hl2 in Hbound.
  - specialize (Hbound (slice bytes (bptr + Z.to_nat w1 + Z.to_nat w2) (Z.to_nat w3))).
    by rewrite Hl3 in Hbound.
Qed.

(** ** Further widths *)

Lemma decode_entry_three x1 x2 x3 rest bytes bptr :
  decode_entry (x1 :: x2 :: x3 :: rest) bytes bptr = decode_entry [x1; x2; x3] bytes bptr.
Proof. reflexivity. Qed.

Lemma read_entries_three doc x1 x2 x3 rest bytes start k : forall i st,
  read_entries doc (x1 :: x2 :: x3 :: rest) bytes start k i st
  = read_entries doc [x1; x2; x3] bytes start k i st.
Proof.
  induction k as [|k IH]; intros i [refs b]; simpl; [done|].
  rewrite decode_entry_three.
  destruct (decode_entry [x1; x2; x3] bytes b) as [[[[ty f2] f3] b']|]; simpl; [|done].
  destruct (make_reference doc (start + i) ty f2 f3); simpl; [apply IH | done].
Qed.

Lemma read_subsections_three doc x1 x2 x3 rest bytes index : forall refs,
  read_subsections doc (x1 :: x2 :: x3 :: rest) bytes index refs
  = read_subsections doc [x1; x2; x3] bytes index refs.
Proof.
  remember (length index) as n eqn:Hn.
  assert (length index <= n)%nat as Hle by lia. clear Hn. revert index Hle.
  induction n as [|n IH]; intros index Hle refs.
  - destruct index; simpl in Hle; [done | lia].
  - destruct index as [|first [|count index]]; simpl; [done | done |].
    destruct (to_int first); simpl; [|done]. destruct (to_int count); simpl; [|done].
    rewrite read_entries_three.
    destruct (read_entries _ _ _ _ _ _ _) as [[refs1 b1]|]; simpl; [|done].
    apply IH. simpl in Hle. lia.
Qed.

(** ** The bytes an entry needs *)

Lemma read_field_in_range bytes w : forall x bptr r,
  read_field bytes w x bptr = Ok r -> (0 < w)%nat -> (bptr + w <= length bytes)%nat.
Proof.
  induction w as [|w IH]; intros x bptr r H Hw; [lia|]. simpl in H.
  unfold index_list in H. destruct (bytes !! bptr) as [b|] eqn:Hb; simpl in H; [|done].
  apply lookup_lt_Some in Hb. destruct w as [|w]; [lia|].
  apply IH in H; lia.
Qed.

Lemma decode_entry_in_range w1 w2 w3 bytes bptr r :
  decode_entry [w1; w2; w3] bytes bptr = Ok r ->
  (0 < entry_width w1 w2 w3)%nat ->
  (bptr + entry_width w1 w2 w3 <= length bytes)%nat.
Proof.
  unfold decode_entry, entry_width. simpl. intros H Hw.
  apply bind_Ok in H as ([t b1] & H1 & H).
  apply bind_Ok in H as ([x2 b2] & H2 & H).
  apply bind_Ok in H as ([x3 b3] & H3 & H).
  assert (b1 = (bptr + Z.to_nat w1)%nat /\
          ((0 < Z.to_nat w1)%nat -> (b1 <= length bytes)%nat)) as [-> Hr1].
  { destruct (0 <? w1) eqn:E.
    - pose proof (read_field_advance _ _ _ _ _ _ H1) as ->. split; [done|].
      intros Hpos. by eapply read_field_in_range.
    - inversion H1; subst. apply Z.ltb_ge in E. lia. }
  pose proof (read_field_advance _ _ _ _ _ _ H2) as ->.
  destruct (decide (0 < Z.to_nat w3)%nat) as [H3pos|H3z].
  { apply read_field_in_range in H3; lia. }
  destruct (decide (0 < Z.to_nat w2)%nat) as [H2pos|H2z].
  { apply read_field_in_range in H2; lia. }
  assert (0 < Z.to_nat w1)%nat as H1pos by lia. specialize (Hr1 H1pos). lia.
Qed.

(** The entries of a subsection that has been read: each one is decoded at its
    own place and has one of the three types. *)
Lemma read_entries_slots doc w1 w2 w3 bytes start k : forall i refs bptr refs' bptr',
  read_entries doc [w1; w2; w3] bytes start k i (refs, bptr) = Ok (refs', bptr') ->
  forall j, (j < k)%nat ->
    exists ty f2 f3 r,
      decode_entry [w1; w2; w3] bytes (bptr + j * entry_width w1 w2 w3)
      = Ok (ty, f2, f3, (bptr + S j * entry_width w1 w2 w3)%nat) /\
      make_reference doc (start + i + Z.of_nat j) ty f2 f3 = Ok r.
Proof.
  induction k as [|k IH]; intros i refs bptr refs' bptr' H j Hj; [lia|]. simpl in H.
  apply bind_Ok in H as ([refs1 bptr1] & H1 & H).
  unfold read_entry in H1.
  apply bind_Ok in H1 as ([[[ty f2] f3] b] & Hd & H1).
  apply bind_Ok in H1 as (r & Hr & H1). inversion H1; subst; clear H1.
  pose proof (decode_entry_advance _ _ _ _ _ _ _ _ _ Hd) as Hb.
  destruct j as [|j].
  - exists ty, f2, f3, r. rewrite Nat.add_0_r, Z.add_0_r. split; [|done].
    rewrite Hd. do 2 f_equal. unfold entry_width. lia.
  - destruct (IH _ _ _ _ _ H j) as (ty' & f2' & f3' & r' & Hd' & Hr'); [lia|].
    exists ty', f2', f3', r'. split.
    + replace (bptr + S j * entry_width w1 w2 w3)%nat
        with (bptr1 + j * entry_width w1 w2 w3)%nat by (unfold entry_width; lia).
      rewrite Hd'. do 2 f_equal. unfold entry_width. lia.
    + rewrite <- Hr'. f_equal. lia.
Qed.

Lemma read_subsections_fit doc w1 w2 w3 bytes (n : nat) : forall index refs refs',
  (length index <= n)%nat ->
  read_subsections doc [w1; w2; w3] bytes index refs = Ok refs' ->
  Forall (fun '(first, count) =>
            (Z.to_nat count * entry_width w1 w2 w3 <= length bytes)%nat)
         (subsections index).
Proof.
  induction n as [|n IH]; intros index refs refs' Hn H.
  - destruct index; simpl in Hn; [constructor | lia].
  - destruct index as [|first [|count index]]; simpl in H; [constructor | done |].
    apply bind_Ok in H as (start & Hs & H). apply bind_Ok in H as (len & Hl & H).
    apply bind_Ok in H as ([refs1 b1] & H1 & H).
    destruct first as [s|]; [|done]. destruct count as [c|]; [|done].
    inversion Hs; inversion Hl; subst. simpl. constructor.
    + destruct (Z.to_nat len) as [|k] eqn:Ek; [lia|].
      destruct (decide (0 < entry_width w1 w2 w3)%nat) as [Hw|Hw]; [|nia].
      destruct (read_entries_slots _ _ _ _ _ _ _ _ _ _ _ _ H1 k) as (ty & f2 & f3 & r & Hd & _);
        [lia|].
      apply decode_entry_in_range in Hd; [|done]. lia.
    + eapply (IH index refs1); [simpl in Hn; lia | exact H].
Qed.

(** X4: when [read] returns, every subsection fits into the decoded bytes on
    its own: [count * (w1 + w2 + w3)] is at most the number of bytes. A stream
    whose bytes end before the entries of a subsection do is not read. *)
Theorem read_needs_the_bytes doc xref_stream refs w1 w2 w3 more :
  W xref_stream = Some (HDecimal w1 :: HDecimal w2 :: HDecimal w3 :: more) ->
  read doc xref_stream = Ok refs ->
  Forall (fun '(first, count) =>
            (Z.to_nat count * entry_width w1 w2 w3
             <= length (DecodedBytes xref_stream))%nat)
         (subsections (index_of xref_stream)).
Proof.
  intros HW H. apply read_Ok_inv in H as (widths & HW' & H).
  rewrite HW in HW'. destruct widths as [|x1 [|x2 [|x3 rest]]]; try done.
  simpl in HW'. inversion HW'; subst.
  rewrite read_subsections_three in H.
  by eapply (read_subsections_fit _ _ _ _ _ (length (index_of xref_stream))).
Qed.

(** ** What the loops do not look at *)

Lemma read_entries_ext doc widths widths' bytes bytes' start k :
  (forall bptr r, decode_entry widths bytes bptr = Ok r ->
                  decode_entry widths' bytes' bptr = Ok r) ->
  forall i st st',
    read_entries doc widths bytes start k i st = Ok st' ->
    read_entries doc widths' bytes' start k i st = Ok st'.
Proof.
  intros Hd. induction k as [|k IH]; intros i [refs b] st' H; simpl in *; [done|].
  apply bind_Ok in H as ([refs1 b1] & H1 & H).
  apply bind_Ok in H1 as ([[[ty f2] f3] b'] & Hdec & H1).
  rewrite (Hd _ _ Hdec). simpl.
  destruct (make_reference doc (start + i) ty f2 f3) as [r|]; simpl in *; [|done].
  inversion H1; subst. by apply IH.
Qed.

Lemma read_subsections_ext doc widths widths' bytes bytes' :
  (forall bptr r, decode_entry widths bytes bptr = Ok r ->
                  decode_entry widths' bytes' bptr = Ok r) ->
  forall (n : nat) index refs refs',
    (length index <= n)%nat ->
    read_subsections doc widths bytes index refs = Ok refs' ->
    read_subsections doc widths' bytes' index refs = Ok refs'.
Proof.
  intros Hd. induction n as [|n IH]; intros index refs refs' Hn H.
  - destruct index; simpl in Hn; [done | lia].
  - destruct index as [|first [|count index]]; simpl in *; [done | done |].
    apply bind_Ok in H as (start & -> & H). apply bind_Ok in H as (len & -> & H).
    apply bind_Ok in H as ([refs1 b1] & H1 & H). simpl.
    rewrite (read_entries_ext _ _ _ _ _ _ _ Hd _ _ _ H1). simpl.
    apply IH; [lia | done].
Qed.

Lemma read_field_more_bytes bytes extra w : forall x bptr r,
  read_field bytes w x bptr = Ok r -> read_field (bytes ++ extra) w x bptr = Ok r.
Proof.
  induction w as [|w IH]; intros x bptr r H; simpl in *; [done|].
  unfold index_list in *. destruct (bytes !! bptr) as [b|] eqn:Hb; simpl in H; [|done].
  rewrite (lookup_app_l_Some _ _ _ _ Hb). simpl. by apply IH.
Qed.

Lemma decode_entry_more_bytes widths bytes extra bptr r :
  decode_entry widths bytes bptr = Ok r ->
  decode_entry widths (bytes ++ extra) bptr = Ok r.
Proof.
  unfold decode_entry. intros H.
  apply bind_Ok in H as (w0 & -> & H). simpl.
  apply bind_Ok in H as ([ty b1] & H1 & H).
  assert ((if 0 <? w0 then read_field (bytes ++ extra) (Z.to_nat w0) 0 bptr
           else Ok (1, bptr)) = Ok (ty, b1)) as ->.
  { destruct (0 <? w0); [by apply read_field_more_bytes | done]. }
  simpl. apply bind_Ok in H as (w1 & -> & H). simpl.
  apply bind_Ok in H as ([f2 b2] & H2 & H).
  rewrite (read_field_more_bytes _ _ _ _ _ _ H2). simpl.
  apply bind_Ok in H as (w2 & -> & H). simpl.
  apply bind_Ok in H as ([f3 b3] & H3 & H).
  rewrite (read_field_more_bytes _ _ _ _ _ _ H3). simpl. done.
Qed.

(** X5: bytes after the entries are not looked at. A stream that is read is
    read with the same result when its decoded bytes are followed by any
    others: surplus bytes raise nothing. *)
Theorem surplus_bytes_ignored doc w size index bytes extra refs :
  read doc (mkXRefStream w size index bytes) = Ok refs ->
  read doc (mkXRefStream w size index (bytes ++ extra)) = Ok refs.
Proof.
  unfold read. simpl. intros H.
  destruct w as [w|]; [|done].
  destruct (negb (forallb is_Decimal w)); [done|].
  destruct (to_ints w) as [widths|]; simpl in *; [|done].
  destruct size as [[n|]|]; try done.
  apply bind_Ok in H as (index' & Hi & H). rewrite Hi. cbn [bind].
  eapply (read_subsections_ext doc widths widths bytes (bytes ++ extra));
    [|reflexivity | exact H].
  intros bptr r. apply decode_entry_more_bytes.
Qed.

Lemma decode_entry_clamped w1 w2 w3 bytes bptr :
  decode_entry [w1; w2; w3] bytes bptr
  = decode_entry [Z.max 0 w1; Z.max 0 w2; Z.max 0 w3] bytes bptr.
Proof.
  unfold decode_entry. simpl.
  replace (Z.to_nat (Z.max 0 w1)) with (Z.to_nat w1) by lia.
  replace (Z.to_nat (Z.max 0 w2)) with (Z.to_nat w2) by lia.
  replace (Z.to_nat (Z.max 0 w3)) with (Z.to_nat w3) by lia.
  replace (0 <? Z.max 0 w1) with (0 <? w1); [done|].
  destruct (0 <? w1) eqn:E; symmetry.
  - apply Z.ltb_lt in E. apply Z.ltb_lt. lia.
  - apply Z.ltb_ge in E. apply Z.ltb_ge. lia.
Qed.

(** X6: only the first three widths count, and only as far as they are
    positive. When [read] returns for a [/W] with further elements, or with
    negative ones, it returns the same list for the [/W] of the first three
    with every negative width replaced by 0. *)
Theorem widths_beyond_three_ignored doc w1 w2 w3 more size index bytes refs :
  read doc (mkXRefStream (Some (HDecimal w1 :: HDecimal w2 :: HDecimal w3 :: more))
              size index bytes) = Ok refs ->
  read doc (mkXRefStream
              (Some [HDecimal (Z.max 0 w1); HDecimal (Z.max 0 w2); HDecimal (Z.max 0 w3)])
              size index bytes) = Ok refs.
Proof.
  unfold read. simpl. intros H.
  destruct (negb (forallb is_Decimal more)); [done|].
  destruct (to_ints more) as [rest|]; simpl in *; [|done].
  destruct size as [[n|]|]; try done.
  apply bind_Ok in H as (index' & Hi & H). rewrite Hi. cbn [bind].
  eapply (read_subsections_ext doc (w1 :: w2 :: w3 :: rest) _ bytes bytes);
    [|reflexivity | exact H].
  intros bptr r. rewrite decode_entry_three, decode_entry_clamped. done.
Qed.

(** ** The list as a sequence of merges *)

(** A subsection that has been read has merged, one after the other, a
    reference made for each of its object numbers. *)
Lemma read_entries_made doc widths bytes start k : forall i refs bptr refs' bptr',
  read_entries doc widths bytes start k i (refs, bptr) = Ok (refs', bptr') ->
  exists made : list (Z * Reference),
    made.*1 = seqZ (start + i) (Z.of_nat k) /\
    Forall (fun nr => exists ty f2 f3, make_reference doc nr.1 ty f2 f3 = Ok nr.2) made /\
    refs' = foldl (fun acc nr => merge_reference acc nr.1 nr.2) refs made.
Proof.
  induction k as [|k IH]; intros i refs bptr refs' bptr' H; simpl in H.
  - inversion H; subst. exists []. by repeat split.
  - apply bind_Ok in H as ([refs1 bptr1] & H1 & H).
    unfold read_entry in H1.
    apply bind_Ok in H1 as ([[[ty f2] f3] b] & _ & H1).
    apply bind_Ok in H1 as (r & Hr & H1). inversion H1; subst; clear H1.
    apply IH in H as (made & Hn & Hall & ->).
    exists ((start + i, r) :: made). split; [|split].
    + rewrite fmap_cons, Hn. rewrite (seqZ_cons (start + i)) by lia.
      simpl fst. f_equal. f_equal; lia.
    + constructor; [by exists ty, f2, f3 | done].
    + done.
Qed.

Lemma read_subsections_made doc widths bytes (n : nat) : forall index refs refs',
  (length index <= n)%nat ->
  read_subsections doc widths bytes index refs = Ok refs' ->
  exists made : list (Z * Reference),
    made.*1 = entry_numbers index /\
    Forall (fun nr => exists ty f2 f3, make_reference doc nr.1 ty f2 f3 = Ok nr.2) made /\
    refs' = foldl (fun acc nr => merge_reference acc nr.1 nr.2) refs made.
Proof.
  induction n as [|n IH]; intros index refs refs' Hn H.
  - destruct index; simpl in Hn; [|lia]. inversion H; subst. exists []. by repeat split.
  - destruct index as [|first [|count index]]; simpl in H.
    + inversion H; subst. exists []. by repeat split.
    + done.
    + apply bind_Ok in H as (start & Hs & H). apply bind_Ok in H as (len & Hl & H).
      apply bind_Ok in H as ([refs1 b1] & H1 & H).
      destruct first as [s|]; [|done]. destruct count as [c|]; [|done].
      inversion Hs; inversion Hl; subst.
      apply read_entries_made in H1 as (made1 & Hn1 & Hall1 & ->).
      apply (IH index) in H as (made2 & Hn2 & Hall2 & ->); [|simpl in Hn; lia].
      exists (made1 ++ made2). split; [|split].
      * rewrite fmap_app, Hn1, Hn2. unfold entry_numbers. simpl.
        by rewrite Z.add_0_r.
      * by apply Forall_app.
      * by rewrite foldl_app.
Qed.

Lemma read_made doc xref_stream refs :
  read doc xref_stream = Ok refs ->
  exists made : list (Z * Reference),
    made.*1 = entry_numbers (index_of xref_stream) /\
    Forall (fun nr => exists ty f2 f3, make_reference doc nr.1 ty f2 f3 = Ok nr.2) made /\
    refs = foldl (fun acc nr => merge_reference acc nr.1 nr.2) [free_list_head doc] made.
Proof.
  intros H. apply read_Ok_inv in H as (widths & _ & H).
  by eapply read_subsections_made.
Qed.

(** X7: the list [read] returns has a reference for object 0 and for object
    numbers of the index only: every reference has an object number, which is
    0 or the number of an entry of a subsection, and has the root document as
    its document; the list has at least the head and at most one reference
    more per entry. *)
Theorem references_come_from_the_index doc xref_stream refs :
  read doc xref_stream = Ok refs ->
  (forall r, r ∈ refs ->
     document r = doc /\
     exists n, object_number r = Some n /\
               (n = 0 \/ n ∈ entry_numbers (index_of xref_stream))) /\
  (1 <= length refs <= 1 + length (entry_numbers (index_of xref_stream)))%nat.
Proof.
  intros H. apply read_made in H as (made & Hn & Hall & ->). rewrite <- Hn. clear Hn.
  assert (forall refs0,
            (forall r, r ∈ refs0 -> document r = doc /\
               exists n, object_number r = Some n /\ n = 0) ->
            let refs' := foldl (fun acc nr => merge_reference acc nr.1 nr.2) refs0 made in
            (forall r, r ∈ refs' -> document r = doc /\
               exists n, object_number r = Some n /\ (n = 0 \/ n ∈ made.*1)) /\
            (length refs0 <= length refs' <= length refs0 + length made.*1)%nat) as Hgen.
  { cut (forall (seen : list Z) refs0,
            (forall r, r ∈ refs0 -> document r = doc /\
               exists n, object_number r = Some n /\ (n = 0 \/ n ∈ seen)) ->
            let refs' := foldl (fun acc nr => merge_reference acc nr.1 nr.2) refs0 made in
            (forall r, r ∈ refs' -> document r = doc /\
               exists n, object_number r = Some n /\ (n = 0 \/ n ∈ seen ++ made.*1)) /\
            (length refs0 <= length refs' <= length refs0 + length made.*1)%nat).
    { intros Hcut refs0 H0. apply (Hcut [] refs0). intros r Hr.
      destruct (H0 r Hr) as (? & n & ? & ?). split; [done|]. exists n. auto. }
    induction Hall as [|[n r] made (ty & f2 & f3 & Hr) _ IH]; intros seen refs0 H0; simpl.
    - split; [|lia]. intros r Hr. destruct (H0 r Hr) as (? & n & ? & Hn).
      split; [done|]. exists n. by rewrite app_nil_r.
    - simpl in Hr. apply make_reference_fields in Hr as (Hnum & Hdoc & _).
      destruct (IH (seen ++ [n]) (merge_reference refs0 n r)) as [Hin Hlen].
      + intros x Hx.
        assert (forall y, y ∈ refs0 -> document y = doc /\
                  exists m, object_number y = Some m /\ (m = 0 \/ m ∈ seen ++ [n])) as H0'.
        { intros y Hy. destruct (H0 y Hy) as (? & m & ? & [? | ?]); split; try done;
            exists m; (split; [done|]); [by left | right; apply elem_of_app; by left]. }
        assert (document r = doc /\
                exists m, object_number r = Some m /\ (m = 0 \/ m ∈ seen ++ [n])) as Hnew.
        { split; [done|]. exists n. split; [done|]. right. apply elem_of_app. right.
          by apply list_elem_of_singleton. }
        destruct (merge_reference_cases refs0 n r)
          as [[_ Hm] | (i & ex & (Hi & Hex & _) & [(_ & _ & Hm) | [(_ & _ & Hm) | (_ & _ & Hm)]])];
          rewrite Hm in Hx.
        * apply elem_of_app in Hx as [Hx | ->%list_elem_of_singleton]; [by apply H0' | done].
        * apply list_elem_of_lookup in Hx as [j Hj].
          apply list_lookup_insert_Some in Hj as [(-> & <- & _) | (_ & Hj)].
          -- simpl. apply H0'. apply list_elem_of_lookup. eauto.
          -- apply H0'. apply list_elem_of_lookup. eauto.
        * by apply H0'.
        * apply elem_of_app in Hx as [Hx | ->%list_elem_of_singleton]; [by apply H0' | done].
      + split.
        * intros x Hx. destruct (Hin x Hx) as (? & m & ? & Hm). split; [done|].
          exists m. split; [done|]. by rewrite <- app_assoc in Hm.
        * assert (length refs0 <= length (merge_reference refs0 n r) <= length refs0 + 1)%nat.
          { destruct (merge_reference_cases refs0 n r)
              as [[_ ->] | (i & ex & _ & [(_ & _ & ->) | [(_ & _ & ->) | (_ & _ & ->)]])];
              rewrite ?length_app, ?length_insert; simpl; lia. }
          rewrite !length_fmap in *. simpl. lia. }
  destruct (Hgen [free_list_head doc]) as [Hin Hlen].
  - intros r ->%list_elem_of_singleton. split; [done|]. by exists 0.
  - split; [exact Hin|]. simpl in Hlen. lia.
Qed.

(** ** Which object numbers, and in which order *)

(** X8: with a root document the list [read] returns has one reference for
    object 0 and one for every other object number of the index, in the order
    in which the numbers first occur in the entries. *)
Theorem numbers_in_order_of_first_entry (d : Document) xref_stream refs :
  read (Some d) xref_stream = Ok refs ->
  object_number <$> refs
  = Some <$> foldl add_once [0] (entry_numbers (index_of xref_stream)).
Proof.
  intros H. apply read_made in H as (made & Hn & Hall & ->). rewrite <- Hn. clear Hn.
  cut (forall refs0 numbers,
         object_number <$> refs0 = Some <$> numbers ->
         Forall (fun r => document r = Some d) refs0 ->
         object_number <$> foldl (fun acc nr => merge_reference acc nr.1 nr.2) refs0 made
         = Some <$> foldl add_once numbers made.*1).
  { intros Hcut. apply Hcut; [done | by apply Forall_singleton]. }
  induction Hall as [|[n r] made (ty & f2 & f3 & Hr) _ IH]; intros refs0 numbers Hnum Hdoc;
    [done|].
  simpl in Hr. apply make_reference_fields in Hr as (Hrn & Hrd & _).
  rewrite fmap_cons. simpl. apply IH.
  - unfold add_once.
    destruct (merge_reference_cases refs0 n r)
      as [[Hnone ->] | (i & ex & (Hi & Hex & _) & Hcase)].
    + rewrite decide_False.
      * rewrite !fmap_app, Hnum. simpl. by rewrite Hrn.
      * intros Hin. apply (list_elem_of_fmap_2 Some) in Hin. rewrite <- Hnum in Hin.
        apply list_elem_of_fmap in Hin as (y & Hy & Hyin). by apply (Hnone y).
    + rewrite decide_True.
      * destruct Hcase as [(_ & _ & ->) | [(_ & _ & ->) | (_ & Hnodoc & _)]]; [| done |].
        -- rewrite list_fmap_insert. rewrite list_insert_id; [done|].
           by rewrite list_lookup_fmap, Hi.
        -- rewrite Forall_forall in Hdoc. rewrite (Hdoc ex) in Hnodoc; [done|].
           apply list_elem_of_lookup. eauto.
      * assert (Some n ∈ Some <$> numbers) as Hin.
        { rewrite <- Hnum, <- Hex. apply list_elem_of_fmap_2.
          apply list_elem_of_lookup. eauto. }
        apply list_elem_of_fmap in Hin as (m & [= <-] & Hm). done.
  - destruct (merge_reference_cases refs0 n r)
      as [[_ ->] | (i & ex & (Hi & _ & _) & [(_ & _ & ->) | [(_ & _ & ->) | (_ & _ & ->)]])].
    + apply Forall_app. split; [done|]. by apply Forall_singleton.
    + apply Forall_insert; [done|]. simpl. rewrite Forall_forall in Hdoc. apply Hdoc.
      apply list_elem_of_lookup. eauto.
    + done.
    + apply Forall_app. split; [done|]. by apply Forall_singleton.
Qed.

(** ** A subsection of new object numbers *)

Lemma find_existing_below refs n :
  (forall r m, r ∈ refs -> object_number r = Some m -> m < n) ->
  merge_reference refs n = fun new => refs ++ [new].
Proof.
  intros Hlt. unfold merge_reference.
  destruct (find_existing refs n) as [[i ex]|] eqn:Hf; [|done].
  apply find_existing_Some in Hf as (Hi & Hex & _).
  assert (n < n); [|lia]. apply (Hlt ex); [|done]. apply list_elem_of_lookup. eauto.
Qed.

Lemma read_entries_fresh doc w1 w2 w3 bytes start k : forall i refs bptr refs' bptr',
  read_entries doc [w1; w2; w3] bytes start k i (refs, bptr) = Ok (refs', bptr') ->
  (forall r m, r ∈ refs -> object_number r = Some m -> m < start + i) ->
  exists rs,
    refs' = refs ++ rs /\ length rs = k /\
    forall j r, rs !! j = Some r ->
      exists ty f2 f3,
        decode_entry [w1; w2; w3] bytes (bptr + j * entry_width w1 w2 w3)
        = Ok (ty, f2, f3, (bptr + S j * entry_width w1 w2 w3)%nat) /\
        make_reference doc (start + i + Z.of_nat j) ty f2 f3 = Ok r.
Proof.
  induction k as [|k IH]; intros i refs bptr refs' bptr' H Hlt; simpl in H.
  - inversion H; subst. exists []. rewrite app_nil_r. by repeat split.
  - apply bind_Ok in H as ([refs1 bptr1] & H1 & H).
    unfold read_entry in H1.
    apply bind_Ok in H1 as ([[[ty f2] f3] b] & Hd & H1).
    apply bind_Ok in H1 as (r & Hr & H1). inversion H1; subst; clear H1.
    rewrite (find_existing_below _ _ Hlt) in H.
    pose proof (decode_entry_advance _ _ _ _ _ _ _ _ _ Hd) as Hb.
    pose proof (make_reference_fields _ _ _ _ _ _ Hr) as (Hrn & _).
    apply IH in H as (rs & -> & Hlen & Hrs).
    + exists (r :: rs). rewrite <- app_assoc. split; [done|]. split; [simpl; lia|].
      intros j x Hj. destruct j as [|j]; simpl in Hj.
      * inversion Hj; subst. exists ty, f2, f3. rewrite Nat.add_0_r, Z.add_0_r.
        split; [|done]. rewrite Hd. do 2 f_equal. unfold entry_width. lia.
      * destruct (Hrs j x Hj) as (ty' & f2' & f3' & Hd' & Hr').
        exists ty', f2', f3'. split.
        -- replace (bptr + S j * entry_width w1 w2 w3)%nat
             with (bptr1 + j * entry_width w1 w2 w3)%nat by (unfold entry_width; lia).
           rewrite Hd'. do 2 f_equal. unfold entry_width. lia.
        -- rewrite <- Hr'. f_equal. lia.
    + intros x m [Hx | ->%list_elem_of_singleton]%elem_of_app Hm.
      * specialize (Hlt x m Hx Hm). lia.
      * rewrite Hrn in Hm. inversion Hm. lia.
Qed.

(** X9: a stream with one subsection [[first count]], [first] at least 1: when
    [read] returns, the list is the head followed by one reference per entry,
    in order; the reference of entry [j] has the object number [first + j]
    and is made from the three fields decoded at byte
    [j * (w1 + w2 + w3)]. *)
Theorem one_subsection_decoded doc w1 w2 w3 more size first count bytes refs :
  1 <= first ->
  read doc (mkXRefStream (Some (HDecimal w1 :: HDecimal w2 :: HDecimal w3 :: more)) size
              (Some [HDecimal first; HDecimal count]) bytes) = Ok refs ->
  exists rs,
    refs = free_list_head doc :: rs /\ length rs = Z.to_nat count /\
    forall j r, rs !! j = Some r ->
      exists ty f2 f3,
        decode_entry [w1; w2; w3] bytes (j * entry_width w1 w2 w3)
        = Ok (ty, f2, f3, (S j * entry_width w1 w2 w3)%nat) /\
        make_reference doc (first + Z.of_nat j) ty f2 f3 = Ok r.
Proof.
  intros Hfirst H. apply read_Ok_inv in H as (widths & HW & H). simpl in HW.
  destruct widths as [|x1 [|x2 [|x3 rest]]]; try done. inversion HW; subst.
  rewrite read_subsections_three in H. simpl in H.
  apply bind_Ok in H as ([refs1 b1] & H1 & H). inversion H; subst; clear H.
  apply read_entries_fresh in H1 as (rs & -> & Hlen & Hrs).
  - exists rs. split; [done|]. split; [done|].
    intros j r Hj. destruct (Hrs j r Hj) as (ty & f2 & f3 & Hd & Hr).
    exists ty, f2, f3. rewrite Z.add_0_r in Hr. done.
  - intros r m ->%list_elem_of_singleton [= <-]. lia.
Qed.

(** X10: a stream without [/Index], read with a root document: the entry of
    object 0 is decoded and then passed over, the head of the list standing
    for it; the list is the head followed by one reference for each of the
    entries 1 to [Size - 1], made from the fields decoded at byte
    [j * (w1 + w2 + w3)]. *)
Theorem default_index_decoded (d : Document) w1 w2 w3 more size bytes refs :
  read (Some d) (mkXRefStream (Some (HDecimal w1 :: HDecimal w2 :: HDecimal w3 :: more))
                   (Some (HDecimal size)) None bytes) = Ok refs ->
  exists rs,
    refs = free_list_head (Some d) :: rs /\ length rs = (Z.to_nat size - 1)%nat /\
    forall j r, rs !! j = Some r ->
      exists ty f2 f3,
        decode_entry [w1; w2; w3] bytes (S j * entry_width w1 w2 w3)
        = Ok (ty, f2, f3, (S (S j) * entry_width w1 w2 w3)%nat) /\
        make_reference (Some d) (Z.of_nat (S j)) ty f2 f3 = Ok r.
Proof.
  intros H. apply read_Ok_inv in H as (widths & HW & H). simpl in HW.
  destruct widths as [|x1 [|x2 [|x3 rest]]]; try done. inversion HW; subst.
  rewrite read_subsections_three in H. unfold index_of in H. simpl in H.
  apply bind_Ok in H as ([refs1 b1] & H1 & H). inversion H; subst; clear H.
  destruct (Z.to_nat size) as [|k] eqn:Ek; simpl in H1.
  - inversion H1; subst. exists []. by repeat split.
  - apply bind_Ok in H1 as ([refs0 b0] & H0 & H1).
    apply bind_Ok in H0 as ([[[ty f2] f3] b] & Hd & H0).
    apply bind_Ok in H0 as (r0 & Hr0 & H0). inversion H0; subst; clear H0.
    pose proof (decode_entry_advance _ _ _ _ _ _ _ _ _ Hd) as Hb.
    assert (merge_reference [free_list_head (Some d)] (0 + 0) r0
            = [free_list_head (Some d)]) as Hm by reflexivity.
    rewrite Hm in H1.
    apply read_entries_fresh in H1 as (rs & -> & Hlen & Hrs).
    + exists rs. split; [done|]. split; [lia|].
      intros j r Hj. destruct (Hrs j r Hj) as (ty' & f2' & f3' & Hd' & Hr').
      exists ty', f2', f3'. split.
      * replace (S j * entry_width x1 x2 x3)%nat
          with (b0 + j * entry_width x1 x2 x3)%nat by (unfold entry_width; lia).
        rewrite Hd'. do 2 f_equal. unfold entry_width. lia.
      * rewrite <- Hr'. f_equal. lia.
    + intros r m ->%list_elem_of_singleton [= <-]. lia.
Qed.

(** ** When [read] returns *)

Lemma make_reference_type doc n ty f2 f3 r :
  make_reference doc n ty f2 f3 = Ok r -> ty = 0 \/ ty = 1 \/ ty = 2.
Proof.
  unfold make_reference, assert.
  destruct (ty =? 0) eqn:E0; [apply Z.eqb_eq in E0; auto|].
  destruct (ty =? 1) eqn:E1; [apply Z.eqb_eq in E1; auto|].
  destruct (ty =? 2) eqn:E2; [apply Z.eqb_eq in E2; auto|].
  simpl. discriminate.
Qed.

Lemma make_reference_returns doc n ty f2 f3 :
  ty = 0 \/ ty = 1 \/ ty = 2 -> exists r, make_reference doc n ty f2 f3 = Ok r.
Proof. intros [-> | [-> | ->]]; eexists; reflexivity. Qed.

Lemma read_subsections_entries_ok doc w1 w2 w3 bytes (n : nat) : forall index refs refs',
  (length index <= n)%nat ->
  read_subsections doc [w1; w2; w3] bytes index refs = Ok refs' ->
  Forall (fun '(first, count) =>
            forall j, (j < Z.to_nat count)%nat -> entry_ok w1 w2 w3 bytes j)
         (subsections index).
Proof.
  induction n as [|n IH]; intros index refs refs' Hn H.
  - destruct index; simpl in Hn; [constructor | lia].
  - destruct index as [|first [|count index]]; simpl in H; [constructor | done |].
    apply bind_Ok in H as (start & Hs & H). apply bind_Ok in H as (len & Hl & H).
    apply bind_Ok in H as ([refs1 b1] & H1 & H).
    destruct first as [s|]; [|done]. destruct count as [c|]; [|done].
    inversion Hs; inversion Hl; subst. simpl. constructor.
    + intros j Hj.
      destruct (read_entries_slots _ _ _ _ _ _ _ _ _ _ _ _ H1 j Hj)
        as (ty & f2 & f3 & r & Hd & Hr).
      exists ty, f2, f3. split; [exact Hd|]. by eapply make_reference_type.
    + eapply (IH index refs1); [simpl in Hn; lia | exact H].
Qed.

Lemma read_entries_returns doc w1 w2 w3 bytes start : forall k i refs (j0 : nat),
  (forall j, (j0 <= j < j0 + k)%nat -> entry_ok w1 w2 w3 bytes j) ->
  exists refs',
    read_entries doc [w1; w2; w3] bytes start k i (refs, (j0 * entry_width w1 w2 w3)%nat)
    = Ok (refs', ((j0 + k) * entry_width w1 w2 w3)%nat).
Proof.
  induction k as [|k IH]; intros i refs j0 Hok.
  - exists refs. simpl. by rewrite Nat.add_0_r.
  - destruct (Hok j0) as (ty & f2 & f3 & Hd & Hty); [lia|].
    destruct (make_reference_returns doc (start + i) ty f2 f3 Hty) as [r Hr].
    destruct (IH (i + 1) (merge_reference refs (start + i) r) (S j0)) as [refs' H'].
    { intros j Hj. apply Hok. lia. }
    exists refs'. cbn [read_entries]. unfold read_entry. rewrite Hd. cbn [bind].
    rewrite Hr. cbn [bind]. rewrite H'. do 3 f_equal. lia.
Qed.

Lemma read_subsections_returns doc w1 w2 w3 bytes (n : nat) : forall (ix : list Z) refs,
  (length ix <= n)%nat ->
  Nat.even (length ix) = true ->
  Forall (fun '(first, count) =>
            forall j, (j < Z.to_nat count)%nat -> entry_ok w1 w2 w3 bytes j)
         (subsections (HDecimal <$> ix)) ->
  exists refs', read_subsections doc [w1; w2; w3] bytes (HDecimal <$> ix) refs = Ok refs'.
Proof.
  induction n as [|n IH]; intros ix refs Hn He Hok.
  - destruct ix; simpl in Hn; [by exists refs | lia].
  - destruct ix as [|first [|count ix]]; [by exists refs | done |].
    rewrite !fmap_cons in *. cbn [subsections] in Hok.
    apply Forall_cons in Hok as [Hc Hok].
    destruct (read_entries_returns doc w1 w2 w3 bytes first (Z.to_nat count) 0 refs 0)
      as [refs1 H1].
    { intros j Hj. apply Hc. lia. }
    destruct (IH ix refs1) as [refs' H']; [simpl in Hn; lia | done | done |].
    exists refs'. cbn [read_subsections to_int bind]. simpl in H1. rewrite H1.
    cbn [bind]. exact H'.
Qed.

Lemma subsections_Decimal (ix : list Z) :
  forallb is_Decimal (HDecimal <$> ix) = true.
Proof. induction ix; [done | by simpl]. Qed.

(** X16: when [read] returns. A stream whose [/W] starts with three Decimals
    and whose [/Index], if it has one, holds Decimals only is read without an
    exception exactly when the other widths are Decimals too, [/Size] is a
    Decimal, [/Index] has an even, non-zero number of elements, and every
    entry of every subsection, counted from byte 0 of the decoded bytes, lies
    within the bytes and has type 0, 1 or 2. *)
Theorem read_returns_exactly_when doc w1 w2 w3 more size (index : option (list Z)) bytes :
  let xref_stream :=
    mkXRefStream (Some (HDecimal w1 :: HDecimal w2 :: HDecimal w3 :: more)) size
      (fmap (M := list) HDecimal <$> index) bytes in
  (exists refs, read doc xref_stream = Ok refs) <->
  forallb is_Decimal more = true /\
  (exists n, size = Some (HDecimal n)) /\
  (forall ix, index = Some ix -> Nat.even (length ix) = true /\ ix <> []) /\
  Forall (fun '(first, count) =>
            forall j, (j < Z.to_nat count)%nat -> entry_ok w1 w2 w3 bytes j)
         (subsections (index_of xref_stream)).
Proof.
  intros xref_stream. split.
  - intros [refs H].
    assert (forallb is_Decimal more = true /\ (exists n, size = Some (HDecimal n)) /\
            (forall ix, index = Some ix -> Nat.even (length ix) = true /\ ix <> []))
      as (Hm & Hs & Hi).
    { unfold read in H. cbn [W Size Index xref_stream] in H.
      cbn [forallb is_Decimal andb] in H.
      destruct (forallb is_Decimal more); [|done]. split; [done|].
      cbn [negb] in H. apply bind_Ok in H as (widths & _ & H).
      destruct size as [[n|]|]; [|done|done]. split; [by exists n|].
      intros ix ->. apply bind_Ok in H as (index' & H & _).
      cbn [fmap option_fmap option_map] in H.
      apply bind_Ok in H as (u & Hev & H). apply bind_Ok in H as (i0 & H0 & _).
      rewrite length_fmap in Hev. unfold assert in Hev.
      split; [by destruct (Nat.even (length ix))|].
      intros Hnil. rewrite Hnil in H0. done. }
    do 3 (split; [done|]).
    apply read_Ok_inv in H as (widths & HW & H).
    cbn [W xref_stream] in HW. destruct widths as [|x1 [|x2 [|x3 rest]]]; try done.
    rewrite !fmap_cons in HW. inversion HW; subst.
    rewrite read_subsections_three in H.
    by eapply (read_subsections_entries_ok _ _ _ _ _ (length (index_of xref_stream))).
  - intros (Hm & [n ->] & Hi & Hok).
    destruct (to_ints_Decimal more Hm) as (zs & Hzs & ->).
    unfold read. cbn [W Size Index xref_stream].
    cbn [forallb is_Decimal andb]. rewrite Hm. cbn [negb to_ints to_int bind].
    rewrite Hzs. cbn [bind DecodedBytes].
    destruct index as [ix|].
    + destruct (Hi ix eq_refl) as [Hev Hne].
      cbn [fmap option_fmap option_map]. rewrite length_fmap, Hev.
      destruct ix as [|a [|b ix]]; [done | done |].
      rewrite !fmap_cons. unfold index_list. cbn [assert bind lookup list_lookup is_Decimal].
      rewrite read_subsections_three, <- !fmap_cons.
      eapply (read_subsections_returns _ _ _ _ _ (length (a :: b :: ix))); [done | done |].
      exact Hok.
    + cbn [fmap option_fmap option_map bind]. rewrite read_subsections_three.
      apply (read_subsections_returns doc w1 w2 w3 bytes 2 [0; n]); [done | done |].
      exact Hok.
Qed.

(** * Further properties of [WriteDictionaryTransformer.transform] *)

(** ** Nothing written is taken back *)

Lemma grows_refl w : grows w w.
Proof.
  repeat split; try (exists []; by rewrite app_nil_r). lia.
Qed.

Lemma grows_trans w1 w2 w3 : grows w1 w2 -> grows w2 w3 -> grows w1 w3.
Proof.
  intros ([d Hd] & [u Hu] & Hn) ([d' Hd'] & [u' Hu'] & Hn'). repeat split.
  - exists (d ++ d'). rewrite Hd', Hd. by rewrite app_assoc.
  - exists (u ++ u'). rewrite Hu', Hu. by rewrite app_assoc.
  - lia.
Qed.

Lemma begin_object_grows l ref w started w2 :
  begin_object l ref w = Some (started, w2) -> grows w w2.
Proof.
  intros Hb. apply begin_object_cases in Hb
    as [(_ & _ & ->) | (r & _ & _ & [(_ & _ & _ & ->) | (_ & _ & ->)])].
  - apply grows_refl.
  - repeat split; simpl; [by eexists | by eexists | lia].
  - repeat split; simpl; [exists []; by rewrite app_nil_r | by eexists | lia].
Qed.

(** X11: a pass only appends. When [transform] returns, the destination is
    the one it started with followed by what it wrote, the recorded references
    are those it started with followed by new ones, and the next object number
    has not gone down; provided the transformers of arrays, streams and images
    only append as well. *)
Theorem transform_only_appends
    (write_other : Kind -> loc -> State -> option State) fuel l w w' ret :
  (forall k c w1 w2, write_other k c w1 = Some w2 -> grows w1 w2) ->
  write_pass write_other fuel l w = Some (w', ret) ->
  grows w w'.
Proof.
  intros Hother H.
  apply (write_pass_preserves write_other (grows w)) in H; [done | | | | | apply grows_refl].
  - intros w0 w1 (_ & Hd & Hu & Hn & _) Hg. eapply grows_trans; [exact Hg|].
    repeat split; [exists []; by rewrite app_nil_r, Hd
                  | exists []; by rewrite app_nil_r, Hu | done].
  - intros cs w0 _ Hg. eapply grows_trans; [exact Hg|].
    repeat split; simpl; [by eexists | exists []; by rewrite app_nil_r | lia].
  - intros l0 w1 started w2 Hg Hb. eapply grows_trans; [exact Hg|].
    eapply grows_trans; [by eapply begin_object_grows|].
    repeat split; simpl; [by eexists | exists []; by rewrite app_nil_r | lia].
  - intros k c w1 w2 Ho Hg. eapply grows_trans; [exact Hg | by eapply Hother].
Qed.

(** ** Matching brackets *)

Lemma balanced_nil : balanced [].
Proof. by split. Qed.

Lemma balanced_app a b : balanced a -> balanced b -> balanced (a ++ b).
Proof.
  intros [Ha1 Ha2] [Hb1 Hb2]. unfold balanced.
  rewrite !List.filter_app, !length_app. lia.
Qed.

Lemma balanced_plain cs : Forall (fun c => is_plain c = true) cs ->
  length (List.filter is_header cs) = 0%nat /\ length (List.filter is_open cs) = 0%nat.
Proof.
  induction 1 as [|c cs Hc _ [IH1 IH2]]; [done|].
  destruct c; simpl in *; try done.
Qed.

Lemma appends_balanced_refl w : appends_balanced w w.
Proof. exists []. split; [by rewrite app_nil_r | apply balanced_nil]. Qed.

Lemma appends_balanced_trans w1 w2 w3 :
  appends_balanced w1 w2 -> appends_balanced w2 w3 -> appends_balanced w1 w3.
Proof.
  intros (a & Ha & Hba) (b & Hb & Hbb). exists (a ++ b).
  split; [by rewrite Hb, Ha, app_assoc | by apply balanced_app].
Qed.

Lemma appends_balanced_write cs w : balanced cs -> appends_balanced w (write cs w).
Proof. intros H. by exists cs. Qed.

Section Balanced.

Variable rt : AnyPDFType -> State -> option State.
Hypothesis rt_balanced : forall v w w', rt v w = Some w' -> appends_balanced w w'.

Lemma write_items_balanced : forall out w w',
  write_items rt out w = Some w' -> appends_balanced w w'.
Proof.
  induction out as [|[k v] out IH]; intros w w' H; simpl in H.
  - inversion H; subst. apply appends_balanced_refl.
  - destruct (rt (Leaf k) w) as [w1|] eqn:H1; simpl in H; [|done].
    destruct (rt v (write [Space] w1)) as [w2|] eqn:H2; simpl in H; [|done].
    apply rt_balanced in H1, H2. apply IH in H.
    eapply appends_balanced_trans; [exact H1|].
    eapply appends_balanced_trans; [by apply (appends_balanced_write [Space])|].
    eapply appends_balanced_trans; [exact H2|].
    destruct out; [done|].
    eapply appends_balanced_trans; [by apply (appends_balanced_write [Space]) | done].
Qed.

Lemma transform_queue_balanced : forall q w w',
  transform_queue rt q w = Some w' -> appends_balanced w w'.
Proof.
  induction q as [|e q IH]; intros w w' H; simpl in H.
  - inversion H; subst. apply appends_balanced_refl.
  - destruct (rt e w) as [w1|] eqn:H1; simpl in H; [|done].
    eapply appends_balanced_trans; [by apply rt_balanced in H1 | by apply IH].
Qed.

Lemma transform_balanced l w w' ret :
  transform rt l w = Some (w', ret) -> appends_balanced w w'.
Proof.
  intros H. unfold transform in H.
  destruct (heap w !! l) as [o|] eqn:Ho; simpl in H; [|done].
  destruct (rewrite_children (items o) [] [] w) as [[[out q] w1]|] eqn:Hr; simpl in H; [|done].
  apply rewrite_children_numbering in Hr as [(_ & Hd & _) _].
  destruct (heap w1 !! l) as [o1|] eqn:Ho1; simpl in H; [|done].
  destruct (begin_object l (reference o1) w1) as [[started w2]|] eqn:Hb.
  - unfold emit in H.
    destruct (write_items rt out (write [DictOpen l] w2)) as [w3|] eqn:Hit; simpl in H; [|done].
    destruct (transform_queue rt q _) as [w4|] eqn:Hq; simpl in H; [|done].
    inversion H; subst; clear H.
    apply write_items_balanced in Hit as (a & Ha & [Ha1 Ha2]).
    apply transform_queue_balanced in Hq as (b & Hb' & [Hb1 Hb2]).
    assert (exists hdr, destination w2 = destination w ++ hdr /\
              length (List.filter is_header hdr) = (if started then 1 else 0)%nat /\
              length (List.filter is_endobj hdr) = 0%nat /\
              length (List.filter is_open hdr) = 0%nat /\
              length (List.filter is_close hdr) = 0%nat) as (hdr & Hh & Hh1 & Hh2 & Hh3 & Hh4).
    { rewrite <- Hd. apply begin_object_cases in Hb
        as [(_ & -> & ->) | (r & _ & _ & [(-> & _ & _ & ->) | (-> & _ & ->)])].
      - exists []. by rewrite app_nil_r.
      - eexists. simpl. split; [done|]. by repeat split.
      - exists []. simpl. by rewrite app_nil_r. }
    exists (hdr ++ [DictOpen l] ++ a ++ [DictClose] ++ (if started then [EndObj] else []) ++ b).
    split.
    + rewrite Hb'. destruct started; simpl; [unfold end_object; simpl|];
        rewrite Ha; simpl; rewrite Hh; rewrite <- !app_assoc; simpl;
        by rewrite <- ?app_assoc.
    + unfold balanced. rewrite !List.filter_app, !length_app. simpl.
      rewrite ?List.filter_app, ?length_app. destruct started; simpl; lia.
  - inversion H; subst. exists []. split; [by rewrite app_nil_r, Hd | apply balanced_nil].
Qed.

End Balanced.

Lemma root_transform_balanced (write_other : Kind -> loc -> State -> option State) :
  (forall k c w1 w2, write_other k c w1 = Some w2 -> appends_balanced w1 w2) ->
  forall fuel v w w', root_transform write_other fuel v w = Some w' -> appends_balanced w w'.
Proof.
  intros Hother. induction fuel as [|fuel IH]; intros v w w' H; simpl in H; [done|].
  destruct v as [s|r|l].
  - inversion H; subst. by apply appends_balanced_write.
  - inversion H; subst. by apply appends_balanced_write.
  - destruct (heap w !! l) as [o|]; simpl in H; [|done].
    destruct (kind o); try (by eapply Hother).
    destruct (transform _ l w) as [[w1 ret]|] eqn:Ht; simpl in H; [|done].
    inversion H; subst. by eapply transform_balanced.
Qed.

(** X12: what a call of [transform] writes is balanced. When it returns, the
    destination is the one it started with followed by chunks among which
    every [N G obj] has its [endobj] and every [<<] its [>>], the dictionaries
    of the queue included; provided the transformers of arrays, streams and
    images write balanced output as well. *)
Theorem transform_writes_balanced
    (write_other : Kind -> loc -> State -> option State) fuel l w w' ret :
  (forall k c w1 w2, write_other k c w1 = Some w2 -> appends_balanced w1 w2) ->
  write_pass write_other fuel l w = Some (w', ret) ->
  exists new, destination w' = destination w ++ new /\ balanced new.
Proof.
  intros Hother H. unfold write_pass in H.
  eapply transform_balanced; [|exact H].
  by apply root_transform_balanced.
Qed.

(** ** A dictionary of leaves *)

Lemma rewrite_children_scalars its : forall out q w,
  Forall (fun kv => is_composite kv.2 = false) its ->
  NoDup (out.*1 ++ its.*1) ->
  rewrite_children its out q w = Some (out ++ its, q, w).
Proof.
  induction its as [|[k v] its IH]; intros out q w Hall Hnd; simpl.
  - by rewrite app_nil_r.
  - apply Forall_cons in Hall as [Hv Hall]. simpl in Hv.
    assert (k ∉ out.*1) as Hk.
    { simpl in Hnd. apply NoDup_app in Hnd as (_ & Hd & _).
      intros Hin. apply (Hd k Hin). left. }
    assert (rewrite_children its (dict_set out k v) q w
            = Some (out ++ (k, v) :: its, q, w)) as Hgoal.
    { rewrite dict_set_fresh by done. rewrite IH; [by rewrite <- app_assoc | done |].
      rewrite fmap_app. simpl. rewrite <- app_assoc. done. }
    by destruct v.
Qed.

(** X13: a dictionary that has no back-reference and no composite child is
    written in place: [<<], its keys and values with one space between them,
    [>>]. Nothing else changes: no object number is given out, no reference is
    recorded, and the dictionary returned has the entries of the input. *)
Theorem direct_dictionary_written_in_place
    (write_other : Kind -> loc -> State -> option State) fuel l w o :
  heap w !! l = Some o ->
  reference o = None ->
  NoDup (items o).*1 ->
  Forall (fun kv => is_composite kv.2 = false) (items o) ->
  write_pass write_other (S fuel) l w
  = Some (write (DictOpen l :: item_chunks (items o) ++ [DictClose]) w, Some (items o)).
Proof.
  intros Ho Href Hnd Hall. unfold write_pass.
  rewrite (transform_after_loop _ l w o (items o) [] w Ho).
  - assert (back_reference w l = None) as -> by (unfold back_reference; by rewrite Ho).
    unfold begin_object, emit. rewrite write_items_chunks by done.
    cbn [mbind option_bind transform_queue]. rewrite !write_write.
    done.
  - by rewrite (rewrite_children_scalars (items o) [] [] w Hall Hnd).
Qed.

(** ** Every graph of dictionaries *)

Lemma graph_state_extends w w' : extends w w' -> graph_state w -> graph_state w'.
Proof.
  intros (Hs & _) [Hwf Hd]. unfold graph_state, well_formed, dictionaries_only.
  rewrite Hs. done.
Qed.

Lemma transform_queue_returns (rt : AnyPDFType -> State -> option State) (f : nat) :
  (forall v w, graph_state w -> queued w v -> (pending w < f)%nat ->
     exists w', rt v w = Some w' /\ extends w w' /\ all_done w' [v]) ->
  forall q w, graph_state w -> Forall (queued w) q -> (pending w < f)%nat ->
    exists w', transform_queue rt q w = Some w' /\ extends w w' /\ all_done w' q.
Proof.
  intros Hrt. induction q as [|e q IH]; intros w Hg Hq Hp; simpl.
  - exists w. split; [done|]. split; [apply extends_refl | constructor].
  - apply Forall_cons in Hq as [He Hq].
    destruct (Hrt e w Hg He Hp) as (w1 & -> & He1 & Hd1). simpl.
    destruct (IH w1) as (w' & Hw' & He' & Hd').
    + by eapply graph_state_extends.
    + eapply Forall_impl; [exact Hq|]. intros v. by apply extends_queued.
    + pose proof (extends_pending _ _ He1). lia.
    + exists w'. split; [done|]. split; [by eapply extends_trans|].
      constructor; [|done]. apply Forall_cons in Hd1 as [Hd1 _].
      destruct e; try done. by eapply extends_done.
Qed.

Lemma transform_returns write_other (f : nat) :
  (forall v w, graph_state w -> queued w v -> (pending w < f)%nat ->
     exists w', root_transform write_other f v w = Some w' /\ extends w w' /\
                all_done w' [v]) ->
  forall l w o,
    graph_state w -> heap w !! l = Some o ->
    (pending w < f)%nat \/
    ((pending w <= f)%nat /\
     (queued w (Composite l) \/ exists k, (k, Composite l) ∈ items o)) ->
    exists w' ret,
      transform (root_transform write_other f) l w = Some (w', ret) /\
      extends w w' /\
      (queued w (Composite l) \/ (exists k, (k, Composite l) ∈ items o) ->
       done_b w' l = true) /\
      (ret <> None -> all_done w' (composites (items o))).
Proof.
  intros Hrt l w o Hg Ho Hfuel.
  pose proof Hg as (Hwf & _).
  destruct (Hwf l _ _ (shape_lookup _ _ _ Ho)) as [Hnd Hptr].
  destruct (rewrite_children_total (items o) [] [] w) as (out & q & w1 & Hr).
  { intros k c Hin. rewrite <- shape_length. by eapply Hptr. }
  destruct (rewrite_children_out (items o) [] [] w out q w1 Hnd Hr) as (new & Hout & Hall).
  simpl in Hout. subst out.
  pose proof (rewrite_children_numbering _ _ _ _ _ _ _ Hr) as [Hn Hq].
  simpl in Hq. subst q.
  pose proof (numbering_extends _ _ Hn) as He1.
  pose proof (graph_state_extends _ _ He1 Hg) as Hg1.
  pose proof (extends_pending _ _ He1) as Hle.
  assert (queued w (Composite l) \/ (exists k, (k, Composite l) ∈ items o) ->
          queued w1 (Composite l)) as Hq1.
  { intros [Hq | [k Hk]]; [by eapply extends_queued|].
    destruct (rewritten_child _ _ _ _ _ _ Hall Hk) as (r & _ & Hb & Hnum). by exists r. }
  rewrite (transform_after_loop _ _ _ _ _ _ _ Ho Hr).
  destruct (begin_object l (back_reference w1 l) w1) as [[started w2]|] eqn:Hb.
  - pose proof (begin_object_extends _ _ _ _ Hb) as He2.
    assert (l < length (heap w1))%nat as Hl.
    { rewrite (extends_length _ _ He1). by eapply lookup_lt_Some. }
    assert ((pending w2 < f)%nat /\
            (queued w (Composite l) \/ (exists k, (k, Composite l) ∈ items o) ->
             done_b w2 l = true)) as [Hp2 Hdone2].
    { pose proof (extends_pending _ _ He2).
      destruct Hfuel as [Hlt | [Hlef Hself]].
      - split; [lia|]. intros Hself.
        by destruct (begin_object_done _ _ _ _ (Hq1 Hself) Hb).
      - destruct (begin_object_done _ _ _ _ (Hq1 Hself) Hb) as [Hf Ht].
        pose proof (extends_pending_lt _ _ _ He2 Hl Hf Ht). split; [lia | done]. }
    destruct f as [|f]; [lia|].
    set (cs := item_chunks new ++ DictClose :: (if started then [EndObj] else [])).
    set (w3 := write (DictOpen l :: cs) w2).
    assert (extends w2 w3) as He3 by apply write_extends.
    destruct (transform_queue_returns (root_transform write_other (S f)) (S f) Hrt
                (composites (items o)) w3) as (w' & Hw' & He' & Hd').
    { eapply graph_state_extends; [|exact Hg1]. by eapply extends_trans. }
    { eapply Forall_impl; [by eapply rewritten_queued|].
      intros v. apply extends_queued. by eapply extends_trans. }
    { unfold w3. rewrite pending_write. lia. }
    exists w', (Some new). split; [|split; [|split]].
    + unfold emit. rewrite write_items_chunks by (by eapply rewritten_not_composite).
      cbn [mbind option_bind]. rewrite !write_write.
      assert ((if started
               then end_object (write ([DictOpen l] ++ item_chunks new ++ [DictClose]) w2)
               else write ([DictOpen l] ++ item_chunks new ++ [DictClose]) w2)
              = w3) as ->.
      { unfold w3, cs. destruct started; [unfold end_object; rewrite write_write|];
          f_equal; simpl; rewrite <- ?app_assoc; done. }
      by rewrite Hw'.
    + eapply extends_trans; [exact He1|]. eapply extends_trans; [exact He2|].
      by eapply extends_trans.
    + intros Hself. apply (extends_done w2); [by eapply extends_trans | by apply Hdone2].
    + done.
  - exists w1, None. split; [done|]. split; [done|]. split; [|done].
    intros Hself. destruct (Hq1 Hself) as (r & Hr1 & Hnum).
    rewrite Hr1 in Hb. apply begin_object_None in Hb.
    apply done_b_true. by exists r.
Qed.

Lemma root_transform_returns write_other : forall f v w,
  graph_state w -> queued w v -> (pending w < f)%nat ->
  exists w', root_transform write_other f v w = Some w' /\ extends w w' /\
             all_done w' [v].
Proof.
  induction f as [|f IH]; intros v w Hg Hq Hp; [lia|].
  destruct v as [s|r|l]; simpl.
  - eexists. split; [done|]. split; [apply write_extends | by constructor].
  - eexists. split; [done|]. split; [apply write_extends | by constructor].
  - pose proof Hq as (r & Hr & _). unfold back_reference in Hr.
    destruct (heap w !! l) as [o|] eqn:Ho; [|done]. simpl.
    pose proof Hg as (_ & Hdict).
    rewrite (Hdict l _ _ (shape_lookup _ _ _ Ho)).
    destruct (transform_returns write_other f IH l w o Hg Ho) as
      (w' & ret & -> & He' & Hdone & _).
    { right. split; [lia | by left]. }
    exists w'. split; [done|]. split; [done|]. constructor; [|constructor].
    apply Hdone. by left.
Qed.

(** X14: on every well-formed graph of dictionaries, cyclic or not, and from
    every state of a pass, a call of [transform] returns: fuel for one call
    more than there are objects whose reference is not yet recorded is
    enough. When the call has written the dictionary, every composite child of
    the dictionary is recorded under a numbered reference by then. *)
Theorem transform_returns_on_every_graph
    (write_other : Kind -> loc -> State -> option State) l w o :
  well_formed w -> dictionaries_only w -> heap w !! l = Some o ->
  exists w' ret,
    write_pass write_other (S (pending w)) l w = Some (w', ret) /\
    shape w' = shape w /\
    (ret <> None -> all_done w' (composites (items o))).
Proof.
  intros Hwf Hdict Ho.
  destruct (transform_returns write_other (S (pending w))
              (root_transform_returns write_other (S (pending w))) l w o)
    as (w' & ret & Ht & (Hs & _) & _ & Hd); [done | done | left; lia |].
  by exists w', ret.
Qed.

(** ** Writing a dictionary again *)

Lemma transform_done (rt : AnyPDFType -> State -> option State) l w o :
  well_formed w -> heap w !! l = Some o -> done_b w l = true ->
  exists w1, transform rt l w = Some (w1, None) /\
             destination w1 = destination w /\
             duplicate_references w1 = duplicate_references w /\
             shape w1 = shape w.
Proof.
  intros Hwf Ho (r & Hr & Hnum & Hin)%done_b_true.
  destruct (Hwf l _ _ (shape_lookup _ _ _ Ho)) as [_ Hptr].
  destruct (rewrite_children_total (items o) [] [] w) as (out & q & w1 & Hrc).
  { intros k c Hc. rewrite <- shape_length. by eapply Hptr. }
  pose proof (rewrite_children_numbering _ _ _ _ _ _ _ Hrc) as [(Hs & Hd & Hu & _ & Hk & _) _].
  exists w1. rewrite (transform_after_loop _ _ _ _ _ _ _ Ho Hrc).
  rewrite (Hk l r Hr Hnum). unfold begin_object.
  rewrite <- Hu in Hin. apply ref_in_true in Hin. by rewrite Hin.
Qed.

(** X15: a dictionary is written once in a pass. After a call of [transform]
    on a dictionary that has a numbered back-reference, or that contains
    itself, has returned, any further call on it, with whatever fuel, returns
    [None] and leaves the destination and the recorded references as they
    are. *)
Theorem second_transform_writes_nothing
    (write_other : Kind -> loc -> State -> option State) l w o :
  well_formed w -> dictionaries_only w -> heap w !! l = Some o ->
  queued w (Composite l) \/ (exists k, (k, Composite l) ∈ items o) ->
  exists w' ret,
    write_pass write_other (S (pending w)) l w = Some (w', ret) /\
    forall fuel, exists w'',
      write_pass write_other fuel l w' = Some (w'', None) /\
      destination w'' = destination w' /\
      duplicate_references w'' = duplicate_references w'.
Proof.
  intros Hwf Hdict Ho Hself.
  destruct (transform_returns write_other (S (pending w))
              (root_transform_returns write_other (S (pending w))) l w o)
    as (w' & ret & Ht & He & Hdone & _); [done | done | left; lia |].
  exists w', ret. split; [exact Ht|]. intros fuel.
  pose proof (graph_state_extends _ _ He (conj Hwf Hdict)) as [Hwf' _].
  pose proof He as (Hs & _).
  pose proof (shape_lookup _ _ _ Ho) as Hl. rewrite <- Hs in Hl.
  apply shape_lookup_inv in Hl as (o' & Ho' & _).
  destruct (transform_done (root_transform write_other fuel) l w' o' Hwf' Ho' (Hdone Hself))
    as (w'' & Ht'' & Hd'' & Hu'' & _).
  by exists w''.
Qed.

(** * The further properties at concrete inputs *)

Lemma fields_are_big_endian_witness :
  let bytes := [x01; x01; x00; x07]%byte in
  let n1 := Z.to_nat 1 in
  let n2 := Z.to_nat 2 in
  let n3 := Z.to_nat 1 in
  1 = (if 0 <? 1 then big_endian (slice bytes 0 n1) else 1) /\
  256 = big_endian (slice bytes (0 + n1) n2) /\
  7 = big_endian (slice bytes (0 + n1 + n2) n3) /\
  (0 < 1 -> 0 <= 1 < 256 ^ 1) /\
  0 <= 256 < 256 ^ Z.of_nat n2 /\
  0 <= 7 < 256 ^ Z.of_nat n3.
Proof.
  apply (fields_are_big_endian 1 2 1 [x01; x01; x00; x07]%byte 0 1 256 7 4).
  reflexivity.
Defined.

Lemma read_needs_the_bytes_witness :
  let xref_stream :=
    mkXRefStream (Some [HDecimal 1; HDecimal 1; HDecimal 2]) (Some (HDecimal 2)) None
      [x00; x00; xff; xff; x01; x11; x00; x00]%byte in
  Forall (fun '(first, count) =>
            (Z.to_nat count * entry_width 1 1 2
             <= length (DecodedBytes xref_stream))%nat)
         (subsections (index_of xref_stream)).
Proof.
  apply (read_needs_the_bytes (Some 1%nat)
           (mkXRefStream (Some [HDecimal 1; HDecimal 1; HDecimal 2]) (Some (HDecimal 2))
              None [x00; x00; xff; xff; x01; x11; x00; x00]%byte)
           [free_list_head (Some 1%nat);
            mkReference (Some 1) 0 None None (Some 17) true (Some 1%nat)]
           1 1 2 []).
  - reflexivity.
  - vm_compute. reflexivity.
Defined.

Lemma surplus_bytes_ignored_witness :
  exists refs,
    read (Some 1%nat)
      (mkXRefStream (Some [HDecimal 1; HDecimal 1; HDecimal 1]) (Some (HDecimal 2)) None
         ([x00; x00; xff; x01; x11; x00]%byte ++ [x02; x09]%byte)) = Ok refs /\
    length refs = 2%nat.
Proof.
  eexists. split.
  - apply (surplus_bytes_ignored (Some 1%nat) (Some [HDecimal 1; HDecimal 1; HDecimal 1])
             (Some (HDecimal 2)) None [x00; x00; xff; x01; x11; x00]%byte
             [x02; x09]%byte).
    vm_compute. reflexivity.
  - reflexivity.
Defined.

Lemma widths_beyond_three_ignored_witness :
  exists refs,
    read (Some 1%nat)
      (mkXRefStream
         (Some [HDecimal (Z.max 0 1); HDecimal (Z.max 0 1); HDecimal (Z.max 0 (-3))])
         (Some (HDecimal 2)) None [x00; x00; x01; x11]%byte) = Ok refs /\
    length refs = 2%nat.
Proof.
  eexists. split.
  - apply (widths_beyond_three_ignored (Some 1%nat) 1 1 (-3) [HDecimal 9]
             (Some (HDecimal 2)) None [x00; x00; x01; x11]%byte).
    vm_compute. reflexivity.
  - reflexivity.
Defined.

Lemma references_come_from_the_index_witness :
  let xref_stream :=
    mkXRefStream (Some [HDecimal 1; HDecimal 1; HDecimal 1]) (Some (HDecimal 9))
      (Some [HDecimal 3; HDecimal 1; HDecimal 7; HDecimal 1])
      [x01; x11; x00]%byte in
  exists refs,
    read None xref_stream = Ok refs /\
    (forall r, r ∈ refs ->
       document r = None /\
       exists n, object_number r = Some n /\
                 (n = 0 \/ n ∈ entry_numbers (index_of xref_stream))) /\
    (1 <= length refs <= 1 + length (entry_numbers (index_of xref_stream)))%nat.
Proof.
  eexists. split; [vm_compute; reflexivity|].
  apply (references_come_from_the_index None
           (mkXRefStream (Some [HDecimal 1; HDecimal 1; HDecimal 1]) (Some (HDecimal 9))
              (Some [HDecimal 3; HDecimal 1; HDecimal 7; HDecimal 1])
              [x01; x11; x00]%byte)).
  vm_compute. reflexivity.
Defined.

Lemma numbers_in_order_of_first_entry_witness :
  let xref_stream :=
    mkXRefStream (Some [HDecimal 1; HDecimal 1; HDecimal 1]) (Some (HDecimal 9))
      (Some [HDecimal 3; HDecimal 2; HDecimal 0; HDecimal 1; HDecimal 4; HDecimal 1])
      [x01; x11; x00; x01; x22; x00]%byte in
  exists refs,
    read (Some 1%nat) xref_stream = Ok refs /\
    object_number <$> refs = Some <$> [0; 3; 4] /\
    object_number <$> refs
    = Some <$> foldl add_once [0] (entry_numbers (index_of xref_stream)).
Proof.
  eexists. split; [vm_compute; reflexivity|]. split; [reflexivity|].
  apply (numbers_in_order_of_first_entry 1%nat
           (mkXRefStream (Some [HDecimal 1; HDecimal 1; HDecimal 1]) (Some (HDecimal 9))
              (Some [HDecimal 3; HDecimal 2; HDecimal 0; HDecimal 1; HDecimal 4; HDecimal 1])
              [x01; x11; x00; x01; x22; x00]%byte)).
  vm_compute. reflexivity.
Defined.

Lemma one_subsection_decoded_witness :
  let bytes := [x01; x11; x00; x02; x07; x03]%byte in
  exists refs,
    read None (mkXRefStream (Some [HDecimal 1; HDecimal 1; HDecimal 1]) (Some (HDecimal 9))
                 (Some [HDecimal 5; HDecimal 2]) bytes) = Ok refs /\
    exists rs,
      refs = free_list_head None :: rs /\ length rs = Z.to_nat 2 /\
      forall j r, rs !! j = Some r ->
        exists ty f2 f3,
          decode_entry [1; 1; 1] bytes (j * entry_width 1 1 1)
          = Ok (ty, f2, f3, (S j * entry_width 1 1 1)%nat) /\
          make_reference None (5 + Z.of_nat j) ty f2 f3 = Ok r.
Proof.
  eexists. split; [vm_compute; reflexivity|].
  apply (one_subsection_decoded None 1 1 1 [] (Some (HDecimal 9)) 5 2
           [x01; x11; x00; x02; x07; x03]%byte).
  - lia.
  - vm_compute. reflexivity.
Defined.

Lemma default_index_decoded_witness :
  let bytes := [x00; x00; xff; x01; x11; x00; x02; x07; x03]%byte in
  exists refs,
    read (Some 1%nat)
      (mkXRefStream (Some [HDecimal 1; HDecimal 1; HDecimal 1]) (Some (HDecimal 3))
         None bytes) = Ok refs /\
    exists rs,
      refs = free_list_head (Some 1%nat) :: rs /\ length rs = (Z.to_nat 3 - 1)%nat /\
      forall j r, rs !! j = Some r ->
        exists ty f2 f3,
          decode_entry [1; 1; 1] bytes (S j * entry_width 1 1 1)
          = Ok (ty, f2, f3, (S (S j) * entry_width 1 1 1)%nat) /\
          make_reference (Some 1%nat) (Z.of_nat (S j)) ty f2 f3 = Ok r.
Proof.
  eexists. split; [vm_compute; reflexivity|].
  apply (default_index_decoded 1%nat 1 1 1 [] 3
           [x00; x00; xff; x01; x11; x00; x02; x07; x03]%byte).
  vm_compute. reflexivity.
Defined.

Lemma transform_only_appends_witness :
  exists w' ret,
    write_pass no_other_transformer 2 0 cycle_state = Some (w', ret) /\
    grows cycle_state w'.
Proof.
  eexists _, _. split; [vm_compute; reflexivity|].
  eapply (transform_only_appends no_other_transformer 2 0%nat cycle_state).
  - intros k c w1 w2 Ho. discriminate Ho.
  - vm_compute. reflexivity.
Defined.

Lemma transform_writes_balanced_witness :
  exists w' ret,
    write_pass no_other_transformer 2 0 cycle_state = Some (w', ret) /\
    exists new, destination w' = destination cycle_state ++ new /\ balanced new.
Proof.
  eexists _, _. split; [vm_compute; reflexivity|].
  eapply (transform_writes_balanced no_other_transformer 2 0%nat cycle_state).
  - intros k c w1 w2 Ho. discriminate Ho.
  - vm_compute. reflexivity.
Defined.

Lemma direct_dictionary_written_in_place_witness :
  let o := mkPdfObject KDictionary
             [("/Type"%string, Leaf "/Page"); ("/Rotate"%string, Leaf "90")] None in
  let w := mkState [o] [] [] 1 in
  write_pass no_other_transformer 1 0 w
  = Some (write (DictOpen 0%nat :: item_chunks (items o) ++ [DictClose]) w,
          Some (items o)).
Proof.
  apply (direct_dictionary_written_in_place no_other_transformer 0 0%nat
           (mkState [mkPdfObject KDictionary
                       [("/Type"%string, Leaf "/Page"); ("/Rotate"%string, Leaf "90")]
                       None] [] [] 1)
           (mkPdfObject KDictionary
              [("/Type"%string, Leaf "/Page"); ("/Rotate"%string, Leaf "90")] None)).
  - reflexivity.
  - reflexivity.
  - apply (bool_decide_unpack _). vm_compute. exact I.
  - repeat constructor.
Defined.

Lemma transform_returns_on_every_graph_witness :
  exists w' ret,
    write_pass no_other_transformer (S (pending cycle_state)) 0 cycle_state
    = Some (w', ret) /\
    shape w' = shape cycle_state /\
    (ret <> None -> all_done w' (composites (items self_dictionary))).
Proof.
  apply (transform_returns_on_every_graph no_other_transformer 0%nat cycle_state
           self_dictionary).
  - exact cycle_state_well_formed.
  - exact cycle_state_dictionaries.
  - reflexivity.
Defined.

Lemma second_transform_writes_nothing_witness :
  exists w' ret,
    write_pass no_other_transformer (S (pending cycle_state)) 0 cycle_state
    = Some (w', ret) /\
    forall fuel, exists w'',
      write_pass no_other_transformer fuel 0 w' = Some (w'', None) /\
      destination w'' = destination w' /\
      duplicate_references w'' = duplicate_references w'.
Proof.
  apply (second_transform_writes_nothing no_other_transformer 0%nat cycle_state
           self_dictionary).
  - exact cycle_state_well_formed.
  - exact cycle_state_dictionaries.
  - reflexivity.
  - right. exists "/Self"%string. simpl. right. left.
Defined.
